(** * The scatter core of the CUDA path tracer ([src/interactions.h])

    A shallow embedding of [calculateRandomDirectionInHemisphere] and
    [scatterRay].  The two functions are written over an interface of
    single-precision operations ([FloatOps]) and over an interface of the
    random engine ([RandomEngine]); everything that only depends on the
    shape of the computation is proved for every implementation of these
    interfaces.  Facts about magnitudes (unit length, bounds) are proved
    for the instance in which every operation is exact, the real numbers
    of the Standard Library.  The light index, which rounding decides, is
    treated in single precision, with the IEEE 754 operations of the
    Standard Library's [SpecFloat]. *)

From Stdlib Require Import ZArith List Bool Reals Lra Lia.
From Stdlib Require Import SpecFloat.
Import ListNotations.

Set Implicit Arguments.

(** ** Scalars *)

(** The operations on [float] that the two functions use.  [of_int] is the
    conversion of an [int] (also of the integer literals 0, 1 and 2),
    [ftrunc] the value of the cast [(int)f] (rounding toward zero),
    [ambient_lit] the value of [float ambient = 0.2].  [TWO_PI] and
    [SQRT_OF_ONE_THIRD] are the two macros of [utilities.h]. *)
Class FloatOps (F : Type) : Type := {
  fadd : F -> F -> F;
  fsub : F -> F -> F;
  fmul : F -> F -> F;
  fdiv : F -> F -> F;
  fneg : F -> F;
  fabs : F -> F;
  fsqrt : F -> F;
  fcos : F -> F;
  fsin : F -> F;
  fpow : F -> F -> F;
  flt : F -> F -> bool;
  fle : F -> F -> bool;
  of_int : Z -> F;
  ftrunc : F -> Z;
  ambient_lit : F;
  TWO_PI : F;
  SQRT_OF_ONE_THIRD : F
}.

Declare Scope float_scope.
Delimit Scope float_scope with fl.
Infix "+" := fadd : float_scope.
Infix "-" := fsub : float_scope.
Infix "*" := fmul : float_scope.
Infix "/" := fdiv : float_scope.
Notation "- a" := (fneg a) : float_scope.
Infix "<?" := flt : float_scope.
Infix "<=?" := fle : float_scope.

(** [thrust::uniform_real_distribution<float> u01(0, 1)] applied to the
    engine: one sample and the advanced engine. *)
Class RandomEngine (F Rng : Type) : Type := {
  u01 : Rng -> F * Rng
}.

(** ** Machine integers *)

Definition INT_MIN : Z := - 2 ^ 31.
Definition INT_MAX : Z := 2 ^ 31 - 1.

Definition in_int_range (i : Z) : bool :=
  ((INT_MIN <=? i) && (i <=? INT_MAX))%Z.

(** [x--] on an [int]: undefined when it overflows. *)
Definition int_dec (i : Z) : option Z :=
  if (INT_MIN <? i)%Z then Some (i - 1)%Z else None.

(** [a[i]] for an array of [length a] elements: undefined out of bounds. *)
Definition index {A : Type} (a : list A) (i : Z) : option A :=
  if (i <? 0)%Z then None else nth_error a (Z.to_nat i).

(** Sequencing of the steps that may be undefined. *)
Definition obind {A B : Type} (o : option A) (k : A -> option B) : option B :=
  match o with
  | Some a => k a
  | None => None
  end.

Notation "x <- o ;; k" := (obind o (fun x => k))
  (at level 61, o at next level, right associativity).

(** ** The part of GLM that is used *)

Module glm.

Record vec3 (F : Type) : Type := Vec3 { x : F; y : F; z : F }.
Arguments Vec3 {F} _ _ _.
Arguments x {F} _.
Arguments y {F} _.
Arguments z {F} _.

Section Ops.
Context {F : Type} {ops : FloatOps F}.
Local Open Scope float_scope.

(** [glm::vec3(s)] *)
Definition splat (s : F) : vec3 F := Vec3 s s s.

(** [-v] *)
Definition vneg (v : vec3 F) : vec3 F := Vec3 (- x v) (- y v) (- z v).
(** [v + w], [v - w], [v * w]: component by component *)
Definition vadd (v w : vec3 F) : vec3 F :=
  Vec3 (x v + x w) (y v + y w) (z v + z w).
Definition vsub (v w : vec3 F) : vec3 F :=
  Vec3 (x v - x w) (y v - y w) (z v - z w).
Definition vmul (v w : vec3 F) : vec3 F :=
  Vec3 (x v * x w) (y v * y w) (z v * z w).
(** [s * v], [v * s], [v / s] *)
Definition smul (s : F) (v : vec3 F) : vec3 F :=
  Vec3 (s * x v) (s * y v) (s * z v).
Definition vscale (v : vec3 F) (s : F) : vec3 F :=
  Vec3 (x v * s) (y v * s) (z v * s).
Definition vdiv (v : vec3 F) (s : F) : vec3 F :=
  Vec3 (x v / s) (y v / s) (z v / s).

(** [glm::dot]: the products are summed from the left. *)
Definition dot (a b : vec3 F) : F :=
  let tmp := vmul a b in
  x tmp + y tmp + z tmp.

(** [glm::cross] *)
Definition cross (a b : vec3 F) : vec3 F :=
  Vec3 (y a * z b - y b * z a)
       (z a * x b - z b * x a)
       (x a * y b - x b * y a).

(** [glm::inversesqrt], [glm::length], [glm::normalize] *)
Definition inversesqrt (s : F) : F := of_int 1 / fsqrt s.
Definition length (v : vec3 F) : F := fsqrt (dot v v).
Definition normalize (v : vec3 F) : vec3 F :=
  vscale v (inversesqrt (dot v v)).

(** [glm::reflect(I, N)] is [I - N * dot(N, I) * 2]. *)
Definition reflect (I N : vec3 F) : vec3 F :=
  vsub I (vscale (vscale N (dot N I)) (of_int 2)).

(** [glm::pow], [glm::abs] on scalars *)
Definition pow (b e : F) : F := fpow b e.
Definition abs (s : F) : F := fabs s.

End Ops.
End glm.

Declare Scope vec_scope.
Delimit Scope vec_scope with V.
Bind Scope vec_scope with glm.vec3.
Arguments glm.smul {F ops} s%_float_scope v%_vec_scope.
Arguments glm.vscale {F ops} v%_vec_scope s%_float_scope.
Arguments glm.vdiv {F ops} v%_vec_scope s%_float_scope.
Infix "+" := glm.vadd : vec_scope.
Infix "-" := glm.vsub : vec_scope.
Infix "*" := glm.vmul : vec_scope.
Notation "- v" := (glm.vneg v) : vec_scope.
Notation "s *: v" := (glm.smul s v) (at level 40, left associativity) : vec_scope.
Notation "v :* s" := (glm.vscale v s) (at level 40, left associativity) : vec_scope.
Notation "v :/ s" := (glm.vdiv v s) (at level 40, left associativity) : vec_scope.

(** ** The records of [sceneStructs.h] *)

(** Modelled from the spec: [sceneStructs.h] is not among the sources.  A
    ray is an origin and a direction. *)
Module Ray.
Record t (F : Type) : Type := mk {
  origin : glm.vec3 F;
  direction : glm.vec3 F
}.
Arguments mk {F} _ _.
Arguments origin {F} _.
Arguments direction {F} _.
End Ray.

(** Modelled from the spec: the path record holds the current ray, the
    throughput, the last colour and the remaining bounce budget; [others]
    stands for every further member of the struct, none of which
    [interactions.h] names. *)
Module PathSegment.
Record t (F Others : Type) : Type := mk {
  ray : Ray.t F;
  throughput : glm.vec3 F;
  color : glm.vec3 F;
  remainingBounces : Z;
  others : Others
}.
Arguments mk {F Others} _ _ _ _ _.
Arguments ray {F Others} _.
Arguments throughput {F Others} _.
Arguments color {F Others} _.
Arguments remainingBounces {F Others} _.
Arguments others {F Others} _.
End PathSegment.

(** Modelled from the spec: hit position, surface normal and the reference
    to the material that was hit. *)
Module ShadeableIntersection.
Record t (F : Type) : Type := mk {
  intersectPos : glm.vec3 F;
  surfaceNormal : glm.vec3 F;
  materialId : Z
}.
Arguments mk {F} _ _ _.
Arguments intersectPos {F} _.
Arguments surfaceNormal {F} _.
Arguments materialId {F} _.
End ShadeableIntersection.

(** Modelled from the spec: base colour, specular colour and exponent, and
    the probability [hasReflective] of the specular branch. *)
Module Specular.
Record t (F : Type) : Type := mk {
  exponent : F;
  color : glm.vec3 F
}.
Arguments mk {F} _ _.
Arguments exponent {F} _.
Arguments color {F} _.
End Specular.

Module Material.
Record t (F : Type) : Type := mk {
  color : glm.vec3 F;
  specular : Specular.t F;
  hasReflective : F
}.
Arguments mk {F} _ _ _.
Arguments color {F} _.
Arguments specular {F} _.
Arguments hasReflective {F} _.
End Material.

(** Modelled from the spec: of a scene object only its reference position
    [translation] is read. *)
Module Geom.
Record t (F : Type) : Type := mk {
  translation : glm.vec3 F
}.
Arguments mk {F} _.
Arguments translation {F} _.
End Geom.

(** ** The two functions of [interactions.h] *)

Section Interactions.
Context {F : Type} {ops : FloatOps F}.
Context {Rng : Type} {engine : RandomEngine F Rng}.
Variable Camera : Type.
Variable Others : Type.

Local Open Scope float_scope.

(** [calculateRandomDirectionInHemisphere(normal, rng)]: the direction and
    the engine after its two draws. *)
Definition calculateRandomDirectionInHemisphere
    (normal : glm.vec3 F) (rng : Rng) : glm.vec3 F * Rng :=
  let (s1, rng) := u01 rng in
  let up := fsqrt s1 in
  let over := fsqrt (of_int 1 - up * up) in
  let (s2, rng) := u01 rng in
  let around := s2 * TWO_PI in
  let directionNotNormal :=
    if fabs (glm.x normal) <? SQRT_OF_ONE_THIRD then
      glm.Vec3 (of_int 1) (of_int 0) (of_int 0)
    else if fabs (glm.y normal) <? SQRT_OF_ONE_THIRD then
      glm.Vec3 (of_int 0) (of_int 1) (of_int 0)
    else
      glm.Vec3 (of_int 0) (of_int 0) (of_int 1) in
  let perpendicularDirection1 :=
    glm.normalize (glm.cross normal directionNotNormal) in
  let perpendicularDirection2 :=
    glm.normalize (glm.cross normal perpendicularDirection1) in
  ((up *: normal
    + (fcos around * over) *: perpendicularDirection1
    + (fsin around * over) *: perpendicularDirection2)%V,
   rng).

(** [(int)rL]: undefined when the truncated value is no [int]. *)
Definition float_to_int (f : F) : option Z :=
  let i := ftrunc f in
  if in_int_range i then Some i else None.

(** [scatterRay(cam, rng, pathSegment, intersection, mat, lights,
    lightsNum, geoms, materials)]: the path record and the engine after the
    call, or [None] where the call reads outside an array or overflows an
    [int].  The assignments to [color] that a later assignment overwrites
    are kept, under the names [color0]. *)
Definition scatterRay
    (cam : Camera) (rng : Rng)
    (pathSegment : PathSegment.t F Others)
    (intersection : ShadeableIntersection.t F)
    (mat : Material.t F)
    (lights : list Z) (lightsNum : Z)
    (geoms : list (Geom.t F))
    (materials : list (Material.t F))
    : option (PathSegment.t F Others * Rng) :=
  let normal := ShadeableIntersection.surfaceNormal intersection in
  let direction := Ray.direction (PathSegment.ray pathSegment) in
  let wi := (- direction)%V in
  let origin := ShadeableIntersection.intersectPos intersection in
  let (randMat, rng) := u01 rng in
  let (sL, rng) := u01 rng in
  let rL := sL * of_int lightsNum in
  randLight <- float_to_int rL ;;
  light <- index lights randLight ;;
  geom <- index geoms light ;;
  let L := (Geom.translation geom - origin)%V in
  let L := glm.normalize L in
  let '(color, throughput, direction, rng) :=
    if randMat <=? Material.hasReflective mat then
      let r := glm.reflect direction normal in
      let v := glm.normalize (ShadeableIntersection.intersectPos intersection) in
      let color0 :=
        (glm.splat (of_int 1) * Specular.color (Material.specular mat)
         :* Material.hasReflective mat
         :* glm.pow (glm.dot r v) (Specular.exponent (Material.specular mat))
         :/ Material.hasReflective mat)%V in
      let color := Specular.color (Material.specular mat) in
      (color, PathSegment.throughput pathSegment, r, rng)
    else
      let diffuse := glm.dot normal L in
      let ambient := ambient_lit in
      let lux := diffuse + ambient in
      let color0 :=
        (PathSegment.throughput pathSegment * Material.color mat :* lux
         :/ (of_int 1 - Material.hasReflective mat))%V in
      let color := Material.color mat in
      let throughput :=
        (PathSegment.throughput pathSegment
         * (color :* glm.abs (glm.dot direction normal) :/ TWO_PI))%V in
      let (direction, rng) := calculateRandomDirectionInHemisphere normal rng in
      (color, throughput, direction, rng) in
  remainingBounces <- int_dec (PathSegment.remainingBounces pathSegment) ;;
  Some (PathSegment.mk (Ray.mk origin direction) throughput color
          remainingBounces (PathSegment.others pathSegment),
        rng).

End Interactions.

(** ** The two outcomes of a call *)

Section Outcomes.
Context {F : Type} {ops : FloatOps F}.
Context {Rng : Type} {engine : RandomEngine F Rng}.
Variable Others : Type.

Local Open Scope float_scope.

(** The sample that selects the branch, the sample that selects the light
    and the engine after these two draws. *)
Definition randMat_of (rng : Rng) : F := fst (u01 rng).
Definition lightSample_of (rng : Rng) : F := fst (u01 (snd (u01 rng))).
Definition after_two_draws (rng : Rng) : Rng := snd (u01 (snd (u01 rng))).

(** The path record and the engine after a call through the specular
    branch and after a call through the diffuse branch, as the assignments
    of [scatterRay] leave them, given the decremented budget [rb]. *)
Definition specular_result (rng : Rng) (p : PathSegment.t F Others)
    (i : ShadeableIntersection.t F) (m : Material.t F) (rb : Z)
    : PathSegment.t F Others * Rng :=
  (PathSegment.mk
     (Ray.mk (ShadeableIntersection.intersectPos i)
        (glm.reflect (Ray.direction (PathSegment.ray p))
           (ShadeableIntersection.surfaceNormal i)))
     (PathSegment.throughput p)
     (Specular.color (Material.specular m))
     rb (PathSegment.others p),
   after_two_draws rng).

Definition diffuse_result (rng : Rng) (p : PathSegment.t F Others)
    (i : ShadeableIntersection.t F) (m : Material.t F) (rb : Z)
    : PathSegment.t F Others * Rng :=
  let n := ShadeableIntersection.surfaceNormal i in
  let s := calculateRandomDirectionInHemisphere n (after_two_draws rng) in
  (PathSegment.mk
     (Ray.mk (ShadeableIntersection.intersectPos i) (fst s))
     (PathSegment.throughput p
      * (Material.color m
         :* glm.abs (glm.dot (Ray.direction (PathSegment.ray p)) n)
         :/ TWO_PI))%V
     (Material.color m)
     rb (PathSegment.others p),
   snd s).

(** The reads of a call are defined: the cast gives an [int] [k], [lights]
    has an element [l] at [k] and [geoms] an element [g] at [l]. *)
Definition reads_defined (rng : Rng) (lights : list Z) (lightsNum : Z)
    (geoms : list (Geom.t F)) (k l : Z) (g : Geom.t F) : Prop :=
  float_to_int (lightSample_of rng * of_int lightsNum) = Some k /\
  index lights k = Some l /\
  index geoms l = Some g.

End Outcomes.

(** ** Exact arithmetic *)

Definition Rltb (a b : R) : bool := if Rlt_dec a b then true else false.
Definition Rleb (a b : R) : bool := if Rle_dec a b then true else false.

(** Rounding toward zero. *)
Definition Rtrunc (r : R) : Z :=
  if Rle_dec 0 r then Int_part r else (- Int_part (- r))%Z.

(** Modelled from the spec: [utilities.h], which defines the macros
    [TWO_PI] and [SQRT_OF_ONE_THIRD], is not among the sources; they are
    twice pi (the spec's [phi = u2 * 2 pi]) and the square root of a third
    (the spec's [1/sqrt(3)] threshold).  Every operation is the operation
    on real numbers and [0.2] is a fifth.  [fpow] is the real power, which
    is [powf] on positive bases.  No operation rounds: a result that
    rounding can change (the light index) is not stated in this
    instance. *)
#[export] Instance exact_ops : FloatOps R := {|
  fadd := Rplus;
  fsub := Rminus;
  fmul := Rmult;
  fdiv := Rdiv;
  fneg := Ropp;
  fabs := Rabs;
  fsqrt := sqrt;
  fcos := cos;
  fsin := sin;
  fpow := Rpower;
  flt := Rltb;
  fle := Rleb;
  of_int := IZR;
  ftrunc := Rtrunc;
  ambient_lit := (2 / 10)%R;
  TWO_PI := (2 * PI)%R;
  SQRT_OF_ONE_THIRD := sqrt (1 / 3)
|}.

(** An engine that replays a recorded sequence of samples. *)
#[export] Instance replay : RandomEngine R (list R) := {|
  u01 := fun l => (hd 0%R l, tl l)
|}.

(** ** A scene to evaluate the functions on *)

Module Scene.
Local Open Scope R_scope.

Definition vec (a b c : R) : glm.vec3 R := glm.Vec3 a b c.

(** A floor point with the normal pointing up, hit by a ray that comes down
    along (3/5, -4/5, 0); one light, straight above the point. *)
Definition normal : glm.vec3 R := vec 0 1 0.
Definition hit : ShadeableIntersection.t R :=
  ShadeableIntersection.mk (vec 0 1 0) normal 0%Z.
Definition incoming : glm.vec3 R := vec (3 / 5) (- (4 / 5)) 0.
Definition path : PathSegment.t R Z :=
  PathSegment.mk (Ray.mk (vec (- 3) 5 0) incoming)
    (vec 1 1 1) (vec 0 0 0) 8%Z 42%Z.
Definition geoms : list (Geom.t R) := [Geom.mk (vec 0 2 0)].
Definition lights : list Z := [0%Z].
Definition baseColor : glm.vec3 R := vec 1 (1 / 2) (1 / 4).
Definition white : glm.vec3 R := vec 1 1 1.
Definition matte : Material.t R :=
  Material.mk baseColor (Specular.mk 1 white) 0.
Definition mirror : Material.t R :=
  Material.mk baseColor (Specular.mk 1 white) 1.
Definition materials : list (Material.t R) := [matte; mirror].
Definition cam : unit := tt.
(** The engines: the branch sample is 1/2, or 0; every later sample is 0. *)
Definition rng_half : list R := [1 / 2; 0; 0; 0].
Definition rng_zero : list R := [0; 0; 0; 0].
(** The direction that the hemisphere sampler returns for the samples 0, 0
    and the normal above. *)
Definition sampled : glm.vec3 R := vec 0 0 (- 1).
Definition reflected : glm.vec3 R := vec (3 / 5) (4 / 5) 0.

End Scene.

(** Component-wise order on vectors of real numbers. *)
Definition vec_le (a b : glm.vec3 R) : Prop :=
  (glm.x a <= glm.x b /\ glm.y a <= glm.y b /\ glm.z a <= glm.z b)%R.

(** ** Two facing mirrors *)

Module Mirrors.
Local Open Scope R_scope.

(** The ray that leaves the floor point of [Scene] along (3/5, 4/5, 0)
    meets, five units further, a ceiling whose normal points down. *)
Definition ceiling : ShadeableIntersection.t R :=
  ShadeableIntersection.mk (Scene.vec 3 5 0) (Scene.vec 0 (- 1) 0) 1%Z.
(** Branch sample 1/2 and light sample 0, twice. *)
Definition rng : list R := [1 / 2; 0; 1 / 2; 0].
(** A second scene object, away from the first. *)
Definition otherGeoms : list (Geom.t R) := [Geom.mk (Scene.vec 7 (- 3) 2)].

End Mirrors.

(** ** Draws of the engine *)

Section Draws.
Context {F : Type} {Rng : Type} {engine : RandomEngine F Rng}.

(** The first [k] samples that the engine delivers, and the engine after
    [k] draws. *)
Fixpoint samples (k : nat) (rng : Rng) : list F :=
  match k with
  | O => nil
  | S k' => fst (u01 rng) :: samples k' (snd (u01 rng))
  end.

Fixpoint advance (k : nat) (rng : Rng) : Rng :=
  match k with
  | O => rng
  | S k' => advance k' (snd (u01 rng))
  end.

End Draws.

(** ** Single precision *)

Section Binary32.
Local Open Scope Z_scope.

(** The conversion of an [int] to [float]: to the nearest, ties to even. *)
Definition f32_of_int (z : Z) : spec_float := binary_normalize 24 128 z 0 false.

(** The cast [(int)f]: toward zero.  The cast of an infinity or of a NaN is
    undefined; they are given a value that is no [int]. *)
Definition f32_trunc (x : spec_float) : Z :=
  match x with
  | S754_zero _ => 0
  | S754_finite s m e =>
      cond_Zopp s (if 0 <=? e then Zpos m * 2 ^ e else Zpos m / 2 ^ (- e))
  | S754_infinity _ | S754_nan => 2147483648
  end.

(** [cosf], [sinf] and [powf] are not IEEE 754 operations: they are left
    open. *)
Variables cosf sinf : spec_float -> spec_float.
Variable powf : spec_float -> spec_float -> spec_float.

(** Modelled from the spec: [utilities.h] is not among the sources; [TWO_PI]
    and [SQRT_OF_ONE_THIRD] are the [float]s nearest to twice pi and to the
    square root of a third, [0x40C90FDB] and [0x3F13CD3A].  The other
    operations are those of IEEE 754 binary32 (24 bits of precision,
    exponents below 128); [0.2] is the [float] [0x3E4CCCCD]. *)
Definition binary32_ops : FloatOps spec_float := {|
  fadd := SFadd 24 128;
  fsub := SFsub 24 128;
  fmul := SFmul 24 128;
  fdiv := SFdiv 24 128;
  fneg := SFopp;
  fabs := SFabs;
  fsqrt := SFsqrt 24 128;
  fcos := cosf;
  fsin := sinf;
  fpow := powf;
  flt := SFltb;
  fle := SFleb;
  of_int := f32_of_int;
  ftrunc := f32_trunc;
  ambient_lit := S754_finite false 13421773 (-26);
  TWO_PI := S754_finite false 13176795 (-21);
  SQRT_OF_ONE_THIRD := S754_finite false 9686330 (-24)
|}.

(** The description's [floor(u * lightCount)], the product taken exactly, for a
    finite [u] that is not negative. *)
Definition floor_of_exact_product (u : spec_float) (n : Z) : Z :=
  match u with
  | S754_finite false m e =>
      if 0 <=? e then Zpos m * 2 ^ e * n else (Zpos m * n) / 2 ^ (- e)
  | _ => 0
  end.

(** The rounding of the positive number [M * 2^E] to single precision, as
    [SFmul] and [f32_of_int] perform it. *)
Definition rnd32 (M : positive) (E : Z) : spec_float :=
  binary_round_aux 24 128 false (Zpos M) E loc_Exact.

(** The float with mantissa [m1], at most 2^24, and exponent [e]. *)
Definition pack32 (m1 e : Z) : spec_float :=
  if m1 =? 0 then S754_zero false
  else if m1 <? 16777216 then S754_finite false (Z.to_pos m1) e
  else S754_finite false 8388608 (e + 1).

(** A float that is not negative and whose value, in units of 2^-149, is
    at most [B]. *)
Definition below (x : spec_float) (B : Z) : Prop :=
  match x with
  | S754_zero _ => True
  | S754_finite false m e => -149 <= e /\ Zpos m * 2 ^ (e + 149) <= B
  | _ => False
  end.

End Binary32.

(** ** A scene in single precision *)

Module Scene32.

Definition zero : spec_float := S754_zero false.
Definition one : spec_float := S754_finite false 8388608 (-23).
Definition two : spec_float := S754_finite false 8388608 (-22).
Definition minus_one : spec_float := S754_finite true 8388608 (-23).
Definition half : spec_float := S754_finite false 8388608 (-24).
(** [0.7f], that is [0x3F333333]. *)
Definition seven_tenths : spec_float := S754_finite false 11744051 (-24).

(** [cosf], [sinf] and [powf] stay unspecified: on the scene they answer
    NaN, so that nothing stated about the scene can rest on them. *)
Definition unspecified1 (x : spec_float) : spec_float := S754_nan.
Definition unspecified2 (x y : spec_float) : spec_float := S754_nan.
Definition ops : FloatOps spec_float :=
  binary32_ops unspecified1 unspecified1 unspecified2.

(** An engine that replays a recorded sequence of samples. *)
Definition engine : RandomEngine spec_float (list spec_float) := {|
  u01 := fun l => (hd zero l, tl l)
|}.

Definition vec (a b c : spec_float) : glm.vec3 spec_float := glm.Vec3 a b c.

(** A floor point with the normal pointing up, hit from straight above; ten
    lights; branch sample 0.5 and light sample 0.7. *)
Definition hit : ShadeableIntersection.t spec_float :=
  ShadeableIntersection.mk (vec zero one zero) (vec zero one zero) 0%Z.
Definition path : PathSegment.t spec_float Z :=
  PathSegment.mk (Ray.mk (vec zero two zero) (vec zero minus_one zero))
    (vec one one one) (vec zero zero zero) 8%Z 42%Z.
Definition matte : Material.t spec_float :=
  Material.mk (vec one half half) (Specular.mk one (vec one one one)) zero.
Definition geoms : list (Geom.t spec_float) := [Geom.mk (vec zero two zero)].
Definition lights : list Z := [0; 0; 0; 0; 0; 0; 0; 0; 0; 0]%Z.
(** The same ten lights, the eighth of which is no index of [geoms]. *)
Definition strayLights : list Z := [0; 0; 0; 0; 0; 0; 0; 5; 0; 0]%Z.
Definition rng : list spec_float := [half; seven_tenths; zero; zero].

End Scene32.

(** * Properties *)

(** ** What a call does, for every arithmetic and every engine *)

Section Shape.
Context {F : Type} {ops : FloatOps F}.
Context {Rng : Type} {engine : RandomEngine F Rng}.
Variable Camera : Type.
Variable Others : Type.

Local Open Scope float_scope.

Lemma scatterRay_unfold :
  forall (cam : Camera) rng (p : PathSegment.t F Others) i m
         lights lightsNum geoms materials,
    scatterRay cam rng p i m lights lightsNum geoms materials =
    (randLight <- float_to_int (lightSample_of rng * of_int lightsNum) ;;
     light <- index lights randLight ;;
     geom <- index geoms light ;;
     rb <- int_dec (PathSegment.remainingBounces p) ;;
     Some (if randMat_of rng <=? Material.hasReflective m
           then specular_result rng p i m rb
           else diffuse_result rng p i m rb)).
Proof.
  intros. unfold scatterRay, specular_result, diffuse_result,
    randMat_of, lightSample_of, after_two_draws.
  destruct (u01 rng) as [randMat rng1]; cbn [fst snd].
  destruct (u01 rng1) as [sL rng2]; cbn [fst snd].
  destruct (float_to_int (sL * of_int lightsNum)) as [randLight|]; cbn [obind];
    [|reflexivity].
  destruct (index lights randLight) as [light|]; cbn [obind]; [|reflexivity].
  destruct (index geoms light) as [geom|]; cbn [obind]; [|reflexivity].
  destruct (randMat <=? Material.hasReflective m).
  - destruct (int_dec (PathSegment.remainingBounces p)); reflexivity.
  - destruct (calculateRandomDirectionInHemisphere
                (ShadeableIntersection.surfaceNormal i) rng2) as [d rng4].
    destruct (int_dec (PathSegment.remainingBounces p)); reflexivity.
Qed.

Lemma int_dec_defined :
  forall i : Z, (INT_MIN < i)%Z -> int_dec i = Some (i - 1)%Z.
Proof.
  intros i H. unfold int_dec.
  destruct (Z.ltb_spec INT_MIN i) as [_|H']; [reflexivity | lia].
Qed.

(** A call whose reads are defined and whose budget can be decremented
    returns, with the record of the branch that the first sample selects. *)
Lemma scatterRay_defined :
  forall (cam : Camera) rng (p : PathSegment.t F Others) i m
         lights lightsNum geoms materials k l g,
    reads_defined rng lights lightsNum geoms k l g ->
    (INT_MIN < PathSegment.remainingBounces p)%Z ->
    scatterRay cam rng p i m lights lightsNum geoms materials =
    Some (if randMat_of rng <=? Material.hasReflective m
          then specular_result rng p i m (PathSegment.remainingBounces p - 1)
          else diffuse_result rng p i m (PathSegment.remainingBounces p - 1)).
Proof.
  intros cam rng p i m lights lightsNum geoms materials k l g
    (Hk & Hl & Hg) Hrb.
  rewrite scatterRay_unfold, Hk. cbn [obind].
  rewrite Hl. cbn [obind]. rewrite Hg. cbn [obind].
  rewrite (int_dec_defined Hrb). reflexivity.
Qed.

(** C10: the camera and the array of materials are never read, so two calls
    that differ in nothing else give the same path record and engine. *)
Theorem scatterRay_ignores_camera_and_materials :
  forall (cam cam' : Camera) rng (p : PathSegment.t F Others) i m
         lights lightsNum geoms materials materials',
    scatterRay cam rng p i m lights lightsNum geoms materials =
    scatterRay cam' rng p i m lights lightsNum geoms materials'.
Proof.
  intros. rewrite !scatterRay_unfold. reflexivity.
Qed.

(** C6: a call whose reads are defined returns a record whose budget is
    one less, whose colour is the colour computed by the branch taken,
    whose ray starts at the intersection position, and whose further
    members are those of the record it was given. *)
Theorem scatterRay_frame :
  forall (cam : Camera) rng (p : PathSegment.t F Others) i m
         lights lightsNum geoms materials k l g,
    reads_defined rng lights lightsNum geoms k l g ->
    (INT_MIN < PathSegment.remainingBounces p)%Z ->
    exists p' rng',
      scatterRay cam rng p i m lights lightsNum geoms materials
        = Some (p', rng') /\
      PathSegment.remainingBounces p'
        = (PathSegment.remainingBounces p - 1)%Z /\
      PathSegment.color p'
        = (if randMat_of rng <=? Material.hasReflective m
           then Specular.color (Material.specular m)
           else Material.color m) /\
      Ray.origin (PathSegment.ray p')
        = ShadeableIntersection.intersectPos i /\
      PathSegment.others p' = PathSegment.others p.
Proof.
  intros cam rng p i m lights lightsNum geoms materials k l g Hreads Hrb.
  rewrite (scatterRay_defined cam p i m materials Hreads Hrb).
  destruct (randMat_of rng <=? Material.hasReflective m).
  - eexists; eexists; split; [reflexivity|]. cbn. auto.
  - unfold diffuse_result. eexists; eexists; split; [reflexivity|]. cbn. auto.
Qed.

(** C1, as the code has it: in the diffuse branch the throughput is
    multiplied, component by component, by
    [mat.color * |dot(d, normal)| / TWO_PI] where [d] is the direction the
    ray had when the call began; the direction sampled in the hemisphere
    only becomes the ray direction afterwards. *)
Theorem scatterRay_diffuse_throughput :
  forall (cam : Camera) rng (p : PathSegment.t F Others) i m
         lights lightsNum geoms materials k l g,
    reads_defined rng lights lightsNum geoms k l g ->
    (INT_MIN < PathSegment.remainingBounces p)%Z ->
    (randMat_of rng <=? Material.hasReflective m) = false ->
    exists p' rng',
      scatterRay cam rng p i m lights lightsNum geoms materials
        = Some (p', rng') /\
      PathSegment.throughput p'
        = (PathSegment.throughput p
           * (Material.color m
              :* glm.abs (glm.dot (Ray.direction (PathSegment.ray p))
                            (ShadeableIntersection.surfaceNormal i))
              :/ TWO_PI))%V /\
      Ray.direction (PathSegment.ray p')
        = fst (calculateRandomDirectionInHemisphere
                 (ShadeableIntersection.surfaceNormal i)
                 (after_two_draws rng)).
Proof.
  intros cam rng p i m lights lightsNum geoms materials k l g Hreads Hrb Hd.
  rewrite (scatterRay_defined cam p i m materials Hreads Hrb), Hd.
  unfold diffuse_result. eexists; eexists; split; [reflexivity|].
  cbn. auto.
Qed.


(** C3, as the code has it: in the specular branch the colour stored in
    the path record is [mat.specular.color] itself; the highlight term and
    the division by [mat.hasReflective] do not reach it. *)
Theorem scatterRay_specular_color :
  forall (cam : Camera) rng (p : PathSegment.t F Others) i m
         lights lightsNum geoms materials k l g,
    reads_defined rng lights lightsNum geoms k l g ->
    (INT_MIN < PathSegment.remainingBounces p)%Z ->
    (randMat_of rng <=? Material.hasReflective m) = true ->
    exists p' rng',
      scatterRay cam rng p i m lights lightsNum geoms materials
        = Some (p', rng') /\
      PathSegment.color p' = Specular.color (Material.specular m).
Proof.
  intros cam rng p i m lights lightsNum geoms materials k l g Hreads Hrb Hs.
  rewrite (scatterRay_defined cam p i m materials Hreads Hrb), Hs.
  eexists; eexists; split; reflexivity.
Qed.

End Shape.

(** ** Vectors of real numbers *)

Section ExactVectors.
Local Open Scope R_scope.

Ltac vec_cbn :=
  cbn [glm.dot glm.cross glm.normalize glm.inversesqrt glm.length
       glm.vadd glm.vsub glm.vmul glm.vneg glm.smul glm.vscale glm.vdiv
       glm.reflect glm.splat glm.abs glm.pow
       glm.x glm.y glm.z
       fadd fsub fmul fdiv fneg fabs fsqrt fcos fsin fpow of_int
       exact_ops].

Lemma dot_sym : forall a b : glm.vec3 R, glm.dot a b = glm.dot b a.
Proof. intros [ax ay az] [bx b_y bz]. vec_cbn. ring. Qed.

Lemma dot_cross_l : forall a b : glm.vec3 R, glm.dot (glm.cross a b) a = 0.
Proof. intros [ax ay az] [bx b_y bz]. vec_cbn. ring. Qed.

Lemma dot_cross_r : forall a b : glm.vec3 R, glm.dot (glm.cross a b) b = 0.
Proof. intros [ax ay az] [bx b_y bz]. vec_cbn. ring. Qed.

(** Lagrange's identity. *)
Lemma dot_cross_cross :
  forall a b : glm.vec3 R,
    glm.dot (glm.cross a b) (glm.cross a b)
    = glm.dot a a * glm.dot b b - glm.dot a b * glm.dot a b.
Proof. intros [ax ay az] [bx b_y bz]. vec_cbn. ring. Qed.

Lemma dot_normalize_l :
  forall w v : glm.vec3 R,
    glm.dot (glm.normalize w) v = glm.dot w v * (1 / sqrt (glm.dot w w)).
Proof. intros [wx wy wz] [v1 v2 v3]. vec_cbn. ring. Qed.

Lemma dot_normalize_self :
  forall w : glm.vec3 R,
    0 < glm.dot w w -> glm.dot (glm.normalize w) (glm.normalize w) = 1.
Proof.
  intros w Hpos.
  rewrite dot_normalize_l, dot_sym, dot_normalize_l.
  pose proof (sqrt_lt_R0 _ Hpos) as Hs.
  pose proof (sqrt_sqrt (glm.dot w w) (Rlt_le _ _ Hpos)) as Hq.
  set (s := sqrt (glm.dot w w)) in *.
  rewrite <- Hq. field. lra.
Qed.

Lemma length_one_dot :
  forall v : glm.vec3 R, glm.length v = 1 <-> glm.dot v v = 1.
Proof.
  intros v. unfold glm.length. cbn [fsqrt exact_ops]. split; intros H.
  - destruct (Rle_lt_dec 0 (glm.dot v v)) as [Hle|Hlt].
    + rewrite <- (sqrt_sqrt _ Hle), H. ring.
    + rewrite (sqrt_neg_0 _ (Rlt_le _ _ Hlt)) in H. lra.
  - rewrite H. apply sqrt_1.
Qed.

Lemma dot_combination_self :
  forall (a b c : R) (u v w : glm.vec3 R),
    let d := (a *: u + b *: v + c *: w)%V in
    glm.dot d d
    = a * a * glm.dot u u + b * b * glm.dot v v + c * c * glm.dot w w
      + 2 * a * b * glm.dot u v + 2 * a * c * glm.dot u w
      + 2 * b * c * glm.dot v w.
Proof.
  intros a b c [ux uy uz] [v1 v2 v3] [wx wy wz]. vec_cbn. ring.
Qed.

Lemma dot_combination_first :
  forall (a b c : R) (u v w : glm.vec3 R),
    glm.dot (a *: u + b *: v + c *: w)%V u
    = a * glm.dot u u + b * glm.dot u v + c * glm.dot u w.
Proof.
  intros a b c [ux uy uz] [v1 v2 v3] [wx wy wz]. vec_cbn. ring.
Qed.

Lemma sqrt_third_bounds : 0 < sqrt (1 / 3) < 1.
Proof.
  split.
  - apply sqrt_lt_R0. lra.
  - rewrite <- sqrt_1 at 2. apply sqrt_lt_1; lra.
Qed.

Lemma Rltb_true : forall a b, Rltb a b = true <-> a < b.
Proof.
  intros a b. unfold Rltb. destruct (Rlt_dec a b); split; intros; auto; discriminate.
Qed.

Lemma Rltb_false : forall a b, Rltb a b = false <-> b <= a.
Proof.
  intros a b. unfold Rltb. destruct (Rlt_dec a b); split; intros; auto;
    try discriminate; lra.
Qed.

Lemma Rleb_true : forall a b, Rleb a b = true <-> a <= b.
Proof.
  intros a b. unfold Rleb. destruct (Rle_dec a b); split; intros; auto; discriminate.
Qed.

Lemma Rleb_false : forall a b, Rleb a b = false <-> b < a.
Proof.
  intros a b. unfold Rleb. destruct (Rle_dec a b); split; intros; auto;
    try discriminate; lra.
Qed.

End ExactVectors.

(** ** The hemisphere sampler in exact arithmetic *)

Section ExactSampler.
Context {Rng : Type} {engine : RandomEngine R Rng}.
Local Open Scope R_scope.

(** The vector across which the basis is built is not parallel to a unit
    normal: the cross product with it is not zero. *)
Lemma cross_axis_nonzero :
  forall n : glm.vec3 R,
    glm.dot n n = 1 ->
    let a :=
      if Rltb (Rabs (glm.x n)) (sqrt (1 / 3)) then glm.Vec3 1 0 0
      else if Rltb (Rabs (glm.y n)) (sqrt (1 / 3)) then glm.Vec3 0 1 0
      else glm.Vec3 0 0 1 in
    0 < glm.dot (glm.cross n a) (glm.cross n a).
Proof.
  intros [nx ny nz] Hn a. subst a.
  pose proof sqrt_third_bounds as [Hc0 Hc1].
  cbn [glm.x glm.y] in *.
  cbn [glm.dot glm.vmul glm.x glm.y glm.z fadd fmul exact_ops] in Hn.
  destruct (Rltb (Rabs nx) (sqrt (1 / 3))) eqn:Ex.
  - apply Rltb_true in Ex.
    assert (Hx : Rabs nx < 1) by lra.
    apply Rabs_def2 in Hx.
    cbn [glm.dot glm.cross glm.vmul glm.x glm.y glm.z fadd fsub fmul exact_ops].
    nra.
  - apply Rltb_false in Ex.
    destruct (Rltb (Rabs ny) (sqrt (1 / 3))) eqn:Ey.
    + apply Rltb_true in Ey.
      assert (Hy : Rabs ny < 1) by lra.
      apply Rabs_def2 in Hy.
      cbn [glm.dot glm.cross glm.vmul glm.x glm.y glm.z fadd fsub fmul exact_ops].
      nra.
    + assert (Hx : nx <> 0).
      { intros ->. rewrite Rabs_R0 in Ex. lra. }
      cbn [glm.dot glm.cross glm.vmul glm.x glm.y glm.z fadd fsub fmul exact_ops].
      assert (0 < nx * nx) by nra.
      nra.
Qed.

(** C7: for a normal [n] of length one there are [t1] and [t2], the two
    perpendicular directions that the code builds from [n] alone, such
    that [n], [t1], [t2] have length one and are pairwise perpendicular
    and, for all samples [u1], [u2] in [0,1), the sampler returns
    [cosTheta*n + cos(phi)*sinTheta*t1 + sin(phi)*sinTheta*t2] with
    [cosTheta = sqrt u1], [sinTheta = sqrt (1 - cosTheta^2)] and
    [phi = 2*pi*u2]; the result has length one and a non-negative dot
    product with [n] (all arithmetic exact). *)
Theorem hemisphere_sample_unit :
  forall n : glm.vec3 R,
    glm.length n = 1 ->
    exists t1 t2 : glm.vec3 R,
      (Rabs (glm.x n) < sqrt (1 / 3) ->
       t1 = glm.normalize (glm.cross n (glm.Vec3 1 0 0))) /\
      (sqrt (1 / 3) <= Rabs (glm.x n) -> Rabs (glm.y n) < sqrt (1 / 3) ->
       t1 = glm.normalize (glm.cross n (glm.Vec3 0 1 0))) /\
      (sqrt (1 / 3) <= Rabs (glm.x n) -> sqrt (1 / 3) <= Rabs (glm.y n) ->
       t1 = glm.normalize (glm.cross n (glm.Vec3 0 0 1))) /\
      t2 = glm.normalize (glm.cross n t1) /\
      glm.length t1 = 1 /\ glm.length t2 = 1 /\
      glm.dot n t1 = 0 /\ glm.dot n t2 = 0 /\ glm.dot t1 t2 = 0 /\
      forall rng : Rng,
        0 <= fst (u01 rng) < 1 ->
        0 <= fst (u01 (snd (u01 rng))) < 1 ->
        let u1 := fst (u01 rng) in
        let u2 := fst (u01 (snd (u01 rng))) in
        let d := fst (calculateRandomDirectionInHemisphere n rng) in
        let cosTheta := sqrt u1 in
        let sinTheta := sqrt (1 - cosTheta * cosTheta) in
        let phi := 2 * PI * u2 in
        d = (cosTheta *: n + (cos phi * sinTheta) *: t1
             + (sin phi * sinTheta) *: t2)%V /\
        glm.length d = 1 /\
        0 <= glm.dot d n.
Proof.
  intros n Hlen.
  apply length_one_dot in Hlen.
  pose proof (cross_axis_nonzero Hlen) as Hax. cbv zeta in Hax.
  set (a := if Rltb (Rabs (glm.x n)) (sqrt (1 / 3)) then glm.Vec3 1 0 0
            else if Rltb (Rabs (glm.y n)) (sqrt (1 / 3)) then glm.Vec3 0 1 0
            else glm.Vec3 0 0 1) in *.
  set (t1 := glm.normalize (glm.cross n a)).
  set (t2 := glm.normalize (glm.cross n t1)).
  assert (H11 : glm.dot t1 t1 = 1) by (apply dot_normalize_self, Hax).
  assert (Hn1 : glm.dot n t1 = 0).
  { rewrite dot_sym. unfold t1. rewrite dot_normalize_l, dot_cross_l. ring. }
  assert (Hc2 : glm.dot (glm.cross n t1) (glm.cross n t1) = 1).
  { rewrite dot_cross_cross, Hlen, H11, Hn1. ring. }
  assert (H22 : glm.dot t2 t2 = 1).
  { apply dot_normalize_self. rewrite Hc2. lra. }
  assert (Hn2 : glm.dot n t2 = 0).
  { rewrite dot_sym. unfold t2. rewrite dot_normalize_l, dot_cross_l. ring. }
  assert (H12 : glm.dot t1 t2 = 0).
  { rewrite dot_sym. unfold t2. rewrite dot_normalize_l, dot_cross_r. ring. }
  exists t1, t2.
  split; [|split; [|split]].
  - intros Hx. unfold t1, a.
    rewrite (proj2 (Rltb_true _ _) Hx). reflexivity.
  - intros Hx Hy. unfold t1, a.
    rewrite (proj2 (Rltb_false _ _) Hx), (proj2 (Rltb_true _ _) Hy).
    reflexivity.
  - intros Hx Hy. unfold t1, a.
    rewrite (proj2 (Rltb_false _ _) Hx), (proj2 (Rltb_false _ _) Hy).
    reflexivity.
  - split; [reflexivity|].
    split; [apply length_one_dot; exact H11|].
    split; [apply length_one_dot; exact H22|].
    split; [exact Hn1|]. split; [exact Hn2|]. split; [exact H12|].
    intros rng Hu1 Hu2 u1 u2 d cosTheta sinTheta phi.
    unfold calculateRandomDirectionInHemisphere in d.
    fold u1 u2 in Hu1, Hu2. subst d.
    destruct (u01 rng) as [s1 rng1] eqn:E1. cbn [fst snd] in *.
    destruct (u01 rng1) as [s2 rng2] eqn:E2. cbn [fst snd] in *.
    subst u1 u2.
    cbn [fsqrt fsub fmul fcos fsin flt fabs of_int TWO_PI SQRT_OF_ONE_THIRD
         exact_ops].
    fold cosTheta. fold sinTheta.
    replace (s2 * (2 * PI)) with phi by (unfold phi; ring).
    fold a. fold t1. fold t2.
    assert (Hcc : cosTheta * cosTheta = s1).
    { unfold cosTheta. apply sqrt_sqrt. lra. }
    assert (Hss : sinTheta * sinTheta = 1 - s1).
    { unfold sinTheta. rewrite Hcc. apply sqrt_sqrt. lra. }
    assert (Hc0 : 0 <= cosTheta) by apply sqrt_pos.
    pose proof (sin2_cos2 phi) as Hsc. unfold Rsqr in Hsc.
    cbn [fst].
    split; [reflexivity|]. split.
    + apply length_one_dot.
      rewrite dot_combination_self, Hlen, H11, H22, Hn1, Hn2, H12.
      nra.
    + rewrite dot_combination_first, Hlen, Hn1, Hn2. lra.
Qed.

End ExactSampler.

(** ** The scatter step in exact arithmetic *)

Section ExactScatter.
Context {Rng : Type} {engine : RandomEngine R Rng}.
Variable Camera : Type.
Variable Others : Type.
Local Open Scope R_scope.

Lemma Rtrunc_nonneg : forall r, 0 <= r -> Rtrunc r = Int_part r.
Proof.
  intros r H. unfold Rtrunc. destruct (Rle_dec 0 r); [reflexivity | contradiction].
Qed.

Lemma index_defined :
  forall (A : Type) (a : list A) (i : Z),
    (0 <= i < Z.of_nat (length a))%Z ->
    exists v, index a i = Some v /\ In v a.
Proof.
  intros A a i [H0 Hlen]. unfold index.
  destruct (Z.ltb_spec i 0) as [Hneg|_]; [lia|].
  destruct (nth_error a (Z.to_nat i)) as [v|] eqn:E.
  - exists v. split; [reflexivity|]. eapply nth_error_In; eauto.
  - apply nth_error_None in E. lia.
Qed.

(** C4: the specular branch is taken when the first sample is at most
    [mat.hasReflective] and the diffuse branch otherwise; with
    [mat.hasReflective = 1] and a sample in [0,1) the branch is the
    specular one and the new direction is the reflection of the incoming
    direction about the normal. *)
Theorem scatterRay_branch :
  forall (cam : Camera) (rng : Rng) (p : PathSegment.t R Others) i m
         lights lightsNum geoms materials k l g,
    reads_defined rng lights lightsNum geoms k l g ->
    (INT_MIN < PathSegment.remainingBounces p)%Z ->
    let rb := (PathSegment.remainingBounces p - 1)%Z in
    exists p' rng',
      scatterRay cam rng p i m lights lightsNum geoms materials
        = Some (p', rng') /\
      (randMat_of rng <= Material.hasReflective m ->
       (p', rng') = specular_result rng p i m rb) /\
      (~ randMat_of rng <= Material.hasReflective m ->
       (p', rng') = diffuse_result rng p i m rb) /\
      (Material.hasReflective m = 1 -> 0 <= randMat_of rng < 1 ->
       (p', rng') = specular_result rng p i m rb /\
       Ray.direction (PathSegment.ray p')
       = glm.reflect (Ray.direction (PathSegment.ray p))
           (ShadeableIntersection.surfaceNormal i)).
Proof.
  intros cam rng p i m lights lightsNum geoms materials k l g Hreads Hrb rb.
  rewrite (scatterRay_defined cam p i m materials Hreads Hrb). fold rb.
  cbn [fle exact_ops].
  destruct (Rleb (randMat_of rng) (Material.hasReflective m)) eqn:E.
  - apply Rleb_true in E.
    eexists; eexists; split; [reflexivity|].
    repeat split; auto. intros H; contradiction.
  - apply Rleb_false in E.
    eexists; eexists; split; [reflexivity|].
    split; [intros; lra|]. split; [reflexivity|].
    intros H1 Hu. lra.
Qed.

(** C5, as the code has it: with [mat.hasReflective = 0] a call takes the
    diffuse branch for every first sample in (0,1) and then stores
    [mat.color] itself as the colour; for the sample 0 it takes the
    specular branch. *)
Theorem scatterRay_matte :
  forall (cam : Camera) (rng : Rng) (p : PathSegment.t R Others) i m
         lights lightsNum geoms materials k l g,
    reads_defined rng lights lightsNum geoms k l g ->
    (INT_MIN < PathSegment.remainingBounces p)%Z ->
    Material.hasReflective m = 0 ->
    0 <= randMat_of rng < 1 ->
    let rb := (PathSegment.remainingBounces p - 1)%Z in
    exists p' rng',
      scatterRay cam rng p i m lights lightsNum geoms materials
        = Some (p', rng') /\
      (0 < randMat_of rng ->
       (p', rng') = diffuse_result rng p i m rb /\
       PathSegment.color p' = Material.color m) /\
      (randMat_of rng = 0 -> (p', rng') = specular_result rng p i m rb).
Proof.
  intros cam rng p i m lights lightsNum geoms materials k l g
    Hreads Hrb Hm Hu rb.
  rewrite (scatterRay_defined cam p i m materials Hreads Hrb). fold rb.
  cbn [fle exact_ops]. rewrite Hm.
  destruct (Rleb (randMat_of rng) 0) eqn:E.
  - apply Rleb_true in E.
    eexists; eexists; split; [reflexivity|].
    split; [intros; lra | reflexivity].
  - apply Rleb_false in E.
    eexists; eexists; split; [reflexivity|].
    split; [|intros; lra]. intros _. split; reflexivity.
Qed.

End ExactScatter.

(** ** The functions on the scene *)

Section SceneFacts.
Local Open Scope R_scope.

Ltac scene_cbv :=
  cbv beta iota zeta delta
      [glm.dot glm.cross glm.normalize glm.inversesqrt glm.length
       glm.vadd glm.vsub glm.vmul glm.vneg glm.smul glm.vscale glm.vdiv
       glm.reflect glm.splat glm.abs glm.pow
       glm.x glm.y glm.z
       fadd fsub fmul fdiv fneg fabs fsqrt fcos fsin fpow flt fle of_int
       TWO_PI SQRT_OF_ONE_THIRD ambient_lit exact_ops
       u01 replay hd tl fst snd
       Scene.vec Scene.normal Scene.incoming Scene.sampled Scene.reflected
       Scene.baseColor Scene.white].

Lemma vec3_eq :
  forall a b c a' b' c' : R,
    a = a' -> b = b' -> c = c' -> glm.Vec3 a b c = glm.Vec3 a' b' c'.
Proof. intros; subst; reflexivity. Qed.

Lemma Rtrunc_zero : Rtrunc 0 = 0%Z.
Proof.
  rewrite Rtrunc_nonneg by lra. symmetry. apply Int_part_spec. lra.
Qed.

Lemma scene_reads :
  forall s : R,
    reads_defined (s :: 0 :: 0 :: 0 :: nil) Scene.lights 1 Scene.geoms
      0 0 (Geom.mk (Scene.vec 0 2 0)).
Proof.
  intros s. unfold reads_defined, lightSample_of, float_to_int.
  scene_cbv. cbn [ftrunc exact_ops].
  replace (0 * 1) with 0 by ring. rewrite Rtrunc_zero.
  repeat split; reflexivity.
Qed.

Lemma scene_sample :
  calculateRandomDirectionInHemisphere Scene.normal (0 :: 0 :: nil)
  = (Scene.sampled, nil).
Proof.
  unfold calculateRandomDirectionInHemisphere. scene_cbv.
  rewrite Rabs_R0.
  replace (Rltb 0 (sqrt (1 / 3))) with true
    by (symmetry; apply Rltb_true; apply sqrt_third_bounds).
  rewrite sqrt_0.
  replace (1 - 0 * 0) with 1 by ring.
  replace (0 * (2 * PI)) with 0 by ring.
  rewrite cos_0, sin_0.
  replace ((1 * 0 - 0 * 0) * (1 * 0 - 0 * 0)
           + (0 * 1 - 0 * 0) * (0 * 1 - 0 * 0)
           + (0 * 0 - 1 * 1) * (0 * 0 - 1 * 1)) with 1 by ring.
  rewrite sqrt_1.
  repeat match goal with
         | |- context [sqrt ?e] => replace e with 1 by field; rewrite sqrt_1
         end.
  f_equal. apply vec3_eq; field.
Qed.

Lemma scene_reflect :
  glm.reflect Scene.incoming Scene.normal = Scene.reflected.
Proof. scene_cbv. apply vec3_eq; field. Qed.

Lemma scene_view :
  glm.normalize (ShadeableIntersection.intersectPos Scene.hit) = Scene.normal.
Proof.
  cbv [Scene.hit ShadeableIntersection.intersectPos]. scene_cbv.
  replace (0 * 0 + 1 * 1 + 0 * 0) with 1 by ring. rewrite sqrt_1.
  apply vec3_eq; field.
Qed.


Lemma scene_normal_unit : glm.length Scene.normal = 1.
Proof.
  scene_cbv. replace (0 * 0 + 1 * 1 + 0 * 0) with 1 by ring. apply sqrt_1.
Qed.

Lemma scene_cosine_incoming :
  glm.abs (glm.dot Scene.incoming Scene.normal) = 4 / 5.
Proof.
  scene_cbv.
  replace (3 / 5 * 0 + - (4 / 5) * 1 + 0 * 0) with (- (4 / 5)) by field.
  rewrite Rabs_Ropp. apply Rabs_right. lra.
Qed.

Lemma scene_cosine_sampled :
  glm.abs (glm.dot Scene.sampled Scene.normal) = 0.
Proof.
  scene_cbv. replace (0 * 0 + 0 * 1 + -1 * 0) with 0 by ring. apply Rabs_R0.
Qed.

Lemma scene_budget : (INT_MIN < PathSegment.remainingBounces Scene.path)%Z.
Proof. reflexivity. Qed.

(** The matte material and the branch sample 1/2: the diffuse branch. *)
Lemma scene_matte_half :
  scatterRay Scene.cam Scene.rng_half Scene.path Scene.hit Scene.matte
    Scene.lights 1 Scene.geoms Scene.materials
  = Some (diffuse_result Scene.rng_half Scene.path Scene.hit Scene.matte 7).
Proof.
  unfold Scene.rng_half.
  rewrite (scatterRay_defined Scene.cam Scene.path Scene.hit Scene.matte
             Scene.materials (scene_reads (1 / 2)) scene_budget).
  fold Scene.rng_half.
  replace (fle (randMat_of Scene.rng_half) (Material.hasReflective Scene.matte))
    with false; [reflexivity|].
  symmetry. apply Rleb_false. cbv [randMat_of Scene.rng_half u01 replay hd fst
    Scene.matte Material.hasReflective]. lra.
Qed.

(** The matte material and the branch sample 0: the specular branch. *)
Lemma scene_matte_zero :
  scatterRay Scene.cam Scene.rng_zero Scene.path Scene.hit Scene.matte
    Scene.lights 1 Scene.geoms Scene.materials
  = Some (specular_result Scene.rng_zero Scene.path Scene.hit Scene.matte 7).
Proof.
  unfold Scene.rng_zero.
  rewrite (scatterRay_defined Scene.cam Scene.path Scene.hit Scene.matte
             Scene.materials (scene_reads 0) scene_budget).
  fold Scene.rng_zero.
  replace (fle (randMat_of Scene.rng_zero) (Material.hasReflective Scene.matte))
    with true; [reflexivity|].
  symmetry. apply Rleb_true. cbv [randMat_of Scene.rng_zero u01 replay hd fst
    Scene.matte Material.hasReflective]. lra.
Qed.

(** The mirror and the branch sample 1/2: the specular branch. *)
Lemma scene_mirror_half :
  scatterRay Scene.cam Scene.rng_half Scene.path Scene.hit Scene.mirror
    Scene.lights 1 Scene.geoms Scene.materials
  = Some (specular_result Scene.rng_half Scene.path Scene.hit Scene.mirror 7).
Proof.
  unfold Scene.rng_half.
  rewrite (scatterRay_defined Scene.cam Scene.path Scene.hit Scene.mirror
             Scene.materials (scene_reads (1 / 2)) scene_budget).
  fold Scene.rng_half.
  replace (fle (randMat_of Scene.rng_half) (Material.hasReflective Scene.mirror))
    with true; [reflexivity|].
  symmetry. apply Rleb_true. cbv [randMat_of Scene.rng_half u01 replay hd fst
    Scene.mirror Material.hasReflective]. lra.
Qed.

Lemma scene_diffuse_direction :
  Ray.direction (PathSegment.ray
    (fst (diffuse_result Scene.rng_half Scene.path Scene.hit Scene.matte 7)))
  = Scene.sampled.
Proof.
  unfold diffuse_result.
  change (after_two_draws Scene.rng_half) with (0 :: 0 :: nil).
  change (ShadeableIntersection.surfaceNormal Scene.hit) with Scene.normal.
  rewrite scene_sample. reflexivity.
Qed.

Lemma scene_diffuse_throughput :
  PathSegment.throughput
    (fst (diffuse_result Scene.rng_half Scene.path Scene.hit Scene.matte 7))
  = Scene.vec (2 / (5 * PI)) (1 / (5 * PI)) (1 / (10 * PI)).
Proof.
  cbv [diffuse_result fst PathSegment.throughput Scene.hit Scene.path
       Scene.matte Material.color PathSegment.ray Ray.direction
       ShadeableIntersection.surfaceNormal].
  fold Scene.normal. rewrite scene_cosine_incoming.
  scene_cbv. pose proof PI_RGT_0.
  apply vec3_eq; field; lra.
Qed.

End SceneFacts.

(** ** Where the code departs from the description *)

Section Departures.
Local Open Scope R_scope.

Ltac scene_unfold H :=
  cbv beta iota zeta delta
      [glm.vadd glm.vsub glm.vmul glm.smul glm.vscale glm.vdiv
       glm.x glm.y glm.z glm.pow
       fadd fsub fmul fdiv fpow TWO_PI ambient_lit exact_ops
       Scene.vec Scene.baseColor Scene.white Scene.path Scene.matte
       Scene.mirror Scene.hit
       PathSegment.throughput Material.color Material.specular
       Material.hasReflective Specular.color Specular.exponent] in H.

(** C1 fails on the scene: the diffuse branch is taken, the sampled
    direction becomes the ray direction, and the new throughput is the old
    one times [baseColor * 4/5 / (2 pi)].  It is not the old one times
    [baseColor * |dot(newDirection, normal)| / pi], and exchanging only the
    direction, or only the constant, does not give it either. *)
Lemma scatterRay_throughput_counterexample :
  exists p' rng',
    scatterRay Scene.cam Scene.rng_half Scene.path Scene.hit Scene.matte
      Scene.lights 1 Scene.geoms Scene.materials = Some (p', rng') /\
    let newDirection := Ray.direction (PathSegment.ray p') in
    let T := PathSegment.throughput Scene.path in
    let baseColor := Material.color Scene.matte in
    newDirection
      = fst (calculateRandomDirectionInHemisphere Scene.normal
               (after_two_draws Scene.rng_half)) /\
    PathSegment.throughput p'
      <> (T * (baseColor :* glm.abs (glm.dot newDirection Scene.normal)
               :/ PI))%V /\
    PathSegment.throughput p'
      <> (T * (baseColor :* glm.abs (glm.dot Scene.incoming Scene.normal)
               :/ PI))%V /\
    PathSegment.throughput p'
      <> (T * (baseColor :* glm.abs (glm.dot newDirection Scene.normal)
               :/ TWO_PI))%V.
Proof.
  exists (fst (diffuse_result Scene.rng_half Scene.path Scene.hit Scene.matte 7)),
         (snd (diffuse_result Scene.rng_half Scene.path Scene.hit Scene.matte 7)).
  split; [rewrite scene_matte_half; reflexivity|].
  cbv zeta.
  rewrite scene_diffuse_direction, scene_diffuse_throughput.
  rewrite scene_cosine_sampled, scene_cosine_incoming.
  pose proof PI_RGT_0 as Hpi.
  assert (E : 2 / (5 * PI) * (5 * PI) = 2) by (field; lra).
  split; [|split; [|split]].
  - change (after_two_draws Scene.rng_half) with (0 :: 0 :: nil).
    rewrite scene_sample. reflexivity.
  - intros H. apply (f_equal glm.x) in H. scene_unfold H.
    rewrite H in E.
    assert (E' : 1 * (1 * 0 / PI) * (5 * PI) = 0) by (field; lra).
    lra.
  - intros H. apply (f_equal glm.x) in H. scene_unfold H.
    rewrite H in E.
    assert (E' : 1 * (1 * (4 / 5) / PI) * (5 * PI) = 4) by (field; lra).
    lra.
  - intros H. apply (f_equal glm.x) in H. scene_unfold H.
    rewrite H in E.
    assert (E' : 1 * (1 * 0 / (2 * PI)) * (5 * PI) = 0) by (field; lra).
    lra.
Qed.

Lemma scene_branch_half_matte :
  fle (randMat_of Scene.rng_half) (Material.hasReflective Scene.matte) = false.
Proof.
  apply Rleb_false.
  cbv [randMat_of Scene.rng_half u01 replay hd fst Scene.matte
       Material.hasReflective]. lra.
Qed.

Lemma scene_branch_half_mirror :
  fle (randMat_of Scene.rng_half) (Material.hasReflective Scene.mirror) = true.
Proof.
  apply Rleb_true.
  cbv [randMat_of Scene.rng_half u01 replay hd fst Scene.mirror
       Material.hasReflective]. lra.
Qed.


(** C3 fails on the scene: the specular branch is taken, the reflected
    direction has the dot product 4/5 with the view direction, the
    exponent is 1, and the colour stored is the specular colour, not the
    specular colour times 4/5. *)
Lemma scatterRay_specular_color_counterexample :
  exists p' rng',
    scatterRay Scene.cam Scene.rng_half Scene.path Scene.hit Scene.mirror
      Scene.lights 1 Scene.geoms Scene.materials = Some (p', rng') /\
    fle (randMat_of Scene.rng_half) (Material.hasReflective Scene.mirror)
      = true /\
    let reflectedDirection :=
      glm.reflect (Ray.direction (PathSegment.ray Scene.path))
        (ShadeableIntersection.surfaceNormal Scene.hit) in
    let viewDirection :=
      glm.normalize (ShadeableIntersection.intersectPos Scene.hit) in
    let hasReflective := Material.hasReflective Scene.mirror in
    let specular := Material.specular Scene.mirror in
    PathSegment.color p'
      <> (Specular.color specular :* hasReflective
          :* glm.pow (Rmax (glm.dot reflectedDirection viewDirection) 0)
               (Specular.exponent specular)
          :/ hasReflective)%V.
Proof.
  exists (fst (specular_result Scene.rng_half Scene.path Scene.hit Scene.mirror 7)),
         (snd (specular_result Scene.rng_half Scene.path Scene.hit Scene.mirror 7)).
  split; [rewrite scene_mirror_half; reflexivity|].
  split; [exact scene_branch_half_mirror|].
  cbv zeta.
  change (Ray.direction (PathSegment.ray Scene.path)) with Scene.incoming.
  change (ShadeableIntersection.surfaceNormal Scene.hit) with Scene.normal.
  rewrite scene_reflect, scene_view.
  replace (glm.dot Scene.reflected Scene.normal) with (4 / 5)
    by (cbv [glm.dot glm.vmul glm.x glm.y glm.z fadd fmul exact_ops
             Scene.reflected Scene.normal Scene.vec]; field).
  rewrite Rmax_left by lra.
  intros H. apply (f_equal glm.x) in H.
  cbv [specular_result fst PathSegment.color] in H. scene_unfold H.
  rewrite Rpower_1 in H by lra.
  assert (E : 1 * 1 * (4 / 5) / 1 = 4 / 5) by field.
  lra.
Qed.

(** C5 fails on the scene, where [hasReflective = 0], the normal is
    (0,1,0), the throughput (1,1,1) and the one light is straight above:
    with the branch sample 0 the call takes the specular branch, and with
    the branch sample 1/2 it stores the base colour, not the base colour
    times 1.2. *)
Lemma scatterRay_matte_counterexample :
  Material.hasReflective Scene.matte = 0 /\
  (exists p' rng',
     0 <= randMat_of Scene.rng_zero < 1 /\
     scatterRay Scene.cam Scene.rng_zero Scene.path Scene.hit Scene.matte
       Scene.lights 1 Scene.geoms Scene.materials = Some (p', rng') /\
     (p', rng')
       = specular_result Scene.rng_zero Scene.path Scene.hit Scene.matte 7 /\
     (p', rng')
       <> diffuse_result Scene.rng_zero Scene.path Scene.hit Scene.matte 7) /\
  (exists p' rng',
     0 <= randMat_of Scene.rng_half < 1 /\
     scatterRay Scene.cam Scene.rng_half Scene.path Scene.hit Scene.matte
       Scene.lights 1 Scene.geoms Scene.materials = Some (p', rng') /\
     PathSegment.color p'
       <> (Material.color Scene.matte :* (1 + 2 / 10))%V).
Proof.
  split; [reflexivity|]. split.
  - exists (fst (specular_result Scene.rng_zero Scene.path Scene.hit Scene.matte 7)),
           (snd (specular_result Scene.rng_zero Scene.path Scene.hit Scene.matte 7)).
    split.
    { cbv [randMat_of Scene.rng_zero u01 replay hd fst]. lra. }
    split; [rewrite scene_matte_zero; reflexivity|].
    split; [reflexivity|].
    intros H.
    apply (f_equal (fun r => glm.y (PathSegment.color (fst r)))) in H.
    cbv [specular_result diffuse_result fst PathSegment.color] in H.
    scene_unfold H. lra.
  - exists (fst (diffuse_result Scene.rng_half Scene.path Scene.hit Scene.matte 7)),
           (snd (diffuse_result Scene.rng_half Scene.path Scene.hit Scene.matte 7)).
    split.
    { cbv [randMat_of Scene.rng_half u01 replay hd fst]. lra. }
    split; [rewrite scene_matte_half; reflexivity|].
    intros H. apply (f_equal glm.x) in H.
    cbv [diffuse_result fst PathSegment.color] in H. scene_unfold H. lra.
Qed.

End Departures.

(** ** The theorems on the scene *)

Section OnTheScene.
Local Open Scope R_scope.

Lemma scene_sample_range :
  forall s : R, 0 <= s < 1 ->
    0 <= randMat_of (s :: 0 :: 0 :: 0 :: nil) < 1 /\
    0 <= lightSample_of (s :: 0 :: 0 :: 0 :: nil) < 1.
Proof.
  intros s Hs. cbv [randMat_of lightSample_of u01 replay hd tl fst snd].
  split; lra.
Qed.

Lemma scatterRay_frame_witness :
  reads_defined Scene.rng_half Scene.lights 1 Scene.geoms 0 0
    (Geom.mk (Scene.vec 0 2 0)) /\
  (INT_MIN < PathSegment.remainingBounces Scene.path)%Z /\
  exists p' rng',
    scatterRay Scene.cam Scene.rng_half Scene.path Scene.hit Scene.matte
      Scene.lights 1 Scene.geoms Scene.materials = Some (p', rng') /\
    PathSegment.remainingBounces p' = (8 - 1)%Z /\
    PathSegment.color p'
      = (if fle (randMat_of Scene.rng_half)
              (Material.hasReflective Scene.matte)
         then Specular.color (Material.specular Scene.matte)
         else Material.color Scene.matte) /\
    Ray.origin (PathSegment.ray p')
      = ShadeableIntersection.intersectPos Scene.hit /\
    PathSegment.others p' = 42%Z.
Proof.
  split; [exact (scene_reads (1 / 2))|].
  split; [exact scene_budget|].
  exact (scatterRay_frame Scene.cam Scene.path Scene.hit Scene.matte
           Scene.materials (scene_reads (1 / 2)) scene_budget).
Defined.

Lemma scatterRay_diffuse_throughput_witness :
  fle (randMat_of Scene.rng_half) (Material.hasReflective Scene.matte)
    = false /\
  exists p' rng',
    scatterRay Scene.cam Scene.rng_half Scene.path Scene.hit Scene.matte
      Scene.lights 1 Scene.geoms Scene.materials = Some (p', rng') /\
    PathSegment.throughput p'
      = (PathSegment.throughput Scene.path
         * (Material.color Scene.matte
            :* glm.abs (glm.dot (Ray.direction (PathSegment.ray Scene.path))
                          (ShadeableIntersection.surfaceNormal Scene.hit))
            :/ TWO_PI))%V /\
    Ray.direction (PathSegment.ray p')
      = fst (calculateRandomDirectionInHemisphere
               (ShadeableIntersection.surfaceNormal Scene.hit)
               (after_two_draws Scene.rng_half)).
Proof.
  split; [exact scene_branch_half_matte|].
  exact (scatterRay_diffuse_throughput Scene.cam Scene.path Scene.hit
           Scene.matte Scene.materials (scene_reads (1 / 2)) scene_budget
           scene_branch_half_matte).
Defined.


Lemma scatterRay_specular_color_witness :
  fle (randMat_of Scene.rng_half) (Material.hasReflective Scene.mirror)
    = true /\
  exists p' rng',
    scatterRay Scene.cam Scene.rng_half Scene.path Scene.hit Scene.mirror
      Scene.lights 1 Scene.geoms Scene.materials = Some (p', rng') /\
    PathSegment.color p' = Specular.color (Material.specular Scene.mirror).
Proof.
  split; [exact scene_branch_half_mirror|].
  exact (scatterRay_specular_color Scene.cam Scene.path Scene.hit
           Scene.mirror Scene.materials (scene_reads (1 / 2)) scene_budget
           scene_branch_half_mirror).
Defined.

Lemma scatterRay_branch_witness :
  Material.hasReflective Scene.mirror = 1 /\
  0 <= randMat_of Scene.rng_half < 1 /\
  exists p' rng',
    scatterRay Scene.cam Scene.rng_half Scene.path Scene.hit Scene.mirror
      Scene.lights 1 Scene.geoms Scene.materials = Some (p', rng') /\
    (p', rng')
      = specular_result Scene.rng_half Scene.path Scene.hit Scene.mirror 7 /\
    Ray.direction (PathSegment.ray p')
      = glm.reflect (Ray.direction (PathSegment.ray Scene.path))
          (ShadeableIntersection.surfaceNormal Scene.hit).
Proof.
  split; [reflexivity|].
  split; [exact (proj1 (scene_sample_range (s := 1 / 2) ltac:(lra)))|].
  destruct (scatterRay_branch Scene.cam Scene.path Scene.hit Scene.mirror
              Scene.materials (scene_reads (1 / 2)) scene_budget)
    as (p' & rng' & Hrun & _ & _ & Hone).
  exists p', rng'. split; [exact Hrun|].
  apply Hone; [reflexivity|].
  exact (proj1 (scene_sample_range (s := 1 / 2) ltac:(lra))).
Defined.

Lemma scatterRay_matte_witness :
  Material.hasReflective Scene.matte = 0 /\
  0 < randMat_of Scene.rng_half < 1 /\
  exists p' rng',
    scatterRay Scene.cam Scene.rng_half Scene.path Scene.hit Scene.matte
      Scene.lights 1 Scene.geoms Scene.materials = Some (p', rng') /\
    (p', rng')
      = diffuse_result Scene.rng_half Scene.path Scene.hit Scene.matte 7 /\
    PathSegment.color p' = Material.color Scene.matte.
Proof.
  assert (Hu : 0 < randMat_of Scene.rng_half < 1).
  { cbv [randMat_of Scene.rng_half u01 replay hd fst]. lra. }
  split; [reflexivity|]. split; [exact Hu|].
  destruct (scatterRay_matte Scene.cam Scene.path Scene.hit Scene.matte
              Scene.materials (scene_reads (1 / 2)) scene_budget
              eq_refl (conj (Rlt_le _ _ (proj1 Hu)) (proj2 Hu)))
    as (p' & rng' & Hrun & Hpos & _).
  exists p', rng'. split; [exact Hrun|]. apply Hpos. exact (proj1 Hu).
Defined.

End OnTheScene.

(** * Further properties of the two functions *)

(** ** For every arithmetic and every engine *)

Section FurtherShape.
Context {F : Type} {ops : FloatOps F}.
Context {Rng : Type} {engine : RandomEngine F Rng}.
Variable Camera : Type.
Variable Others : Type.

Local Open Scope float_scope.

Lemma index_nil : forall (A : Type) (i : Z), index (@nil A) i = None.
Proof.
  intros A i. unfold index. destruct (i <? 0)%Z; [reflexivity|].
  destruct (Z.to_nat i); reflexivity.
Qed.

(** The sampler leaves the engine where two draws leave it, whatever the
    normal. *)
Lemma sampler_draws :
  forall (n : glm.vec3 F) (rng : Rng),
    snd (calculateRandomDirectionInHemisphere n rng) = after_two_draws rng.
Proof.
  intros n rng. unfold calculateRandomDirectionInHemisphere, after_two_draws.
  destruct (u01 rng) as [s1 rng1]; cbn [fst snd].
  destruct (u01 rng1) as [s2 rng2]; reflexivity.
Qed.

(** X1: the light that is selected has no effect on the result: two calls
    that differ only in the lights, their number and the scene objects
    return the same path record and engine, as long as the reads of both
    are in bounds. *)
Theorem scatterRay_ignores_selected_light :
  forall (cam : Camera) rng (p : PathSegment.t F Others) i m materials
         lights lightsNum geoms k l g
         lights' lightsNum' geoms' k' l' g',
    reads_defined rng lights lightsNum geoms k l g ->
    reads_defined rng lights' lightsNum' geoms' k' l' g' ->
    scatterRay cam rng p i m lights lightsNum geoms materials
    = scatterRay cam rng p i m lights' lightsNum' geoms' materials.
Proof.
  intros cam rng p i m materials lights lightsNum geoms k l g
    lights' lightsNum' geoms' k' l' g' (Hk & Hl & Hg) (Hk' & Hl' & Hg').
  rewrite !scatterRay_unfold.
  rewrite Hk, Hk'. cbn [obind]. rewrite Hl, Hl'. cbn [obind].
  rewrite Hg, Hg'. reflexivity.
Qed.

(** X2: a call with an empty array of lights, or with an empty array of
    scene objects, reads outside the array whatever the samples, the light
    count and the material are: it has no defined result. *)
Theorem scatterRay_empty_scene_undefined :
  forall (cam : Camera) rng (p : PathSegment.t F Others) i m
         lights lightsNum geoms materials,
    scatterRay cam rng p i m nil lightsNum geoms materials = None /\
    scatterRay cam rng p i m lights lightsNum nil materials = None.
Proof.
  intros. rewrite !scatterRay_unfold. split.
  - destruct (float_to_int (lightSample_of rng * of_int lightsNum));
      cbn [obind]; [|reflexivity].
    rewrite index_nil. reflexivity.
  - destruct (float_to_int (lightSample_of rng * of_int lightsNum))
      as [randLight|]; cbn [obind]; [|reflexivity].
    destruct (index lights randLight); cbn [obind]; [|reflexivity].
    rewrite index_nil. reflexivity.
Qed.

(** X3: a call through the specular branch draws two samples and leaves
    the throughput as it was; a call through the diffuse branch draws
    four samples, the last two in the hemisphere sampler. *)
Theorem scatterRay_draws :
  forall (cam : Camera) rng (p : PathSegment.t F Others) i m
         lights lightsNum geoms materials k l g,
    reads_defined rng lights lightsNum geoms k l g ->
    (INT_MIN < PathSegment.remainingBounces p)%Z ->
    exists p' rng',
      scatterRay cam rng p i m lights lightsNum geoms materials
        = Some (p', rng') /\
      if randMat_of rng <=? Material.hasReflective m
      then rng' = after_two_draws rng /\
           PathSegment.throughput p' = PathSegment.throughput p
      else rng' = after_two_draws (after_two_draws rng).
Proof.
  intros cam rng p i m lights lightsNum geoms materials k l g Hreads Hrb.
  rewrite (scatterRay_defined cam p i m materials Hreads Hrb).
  destruct (randMat_of rng <=? Material.hasReflective m).
  - eexists; eexists; split; [reflexivity|]. split; reflexivity.
  - unfold diffuse_result. eexists; eexists; split; [reflexivity|].
    apply sampler_draws.
Qed.

End FurtherShape.

(** ** In exact arithmetic: vectors *)

Section FurtherVectors.
Local Open Scope R_scope.

Ltac vec_unfold :=
  cbv beta iota zeta delta
      [glm.dot glm.cross glm.vadd glm.vsub glm.vmul glm.vneg glm.smul
       glm.vscale glm.vdiv glm.reflect glm.abs
       glm.x glm.y glm.z
       fadd fsub fmul fdiv fneg fabs of_int exact_ops].

Lemma dot_self_nonneg : forall a : glm.vec3 R, 0 <= glm.dot a a.
Proof. intros [ax ay az]. vec_unfold. nra. Qed.

(** Cauchy and Schwarz, for vectors of length one. *)
Lemma dot_abs_le_one :
  forall a b : glm.vec3 R,
    glm.dot a a = 1 -> glm.dot b b = 1 -> Rabs (glm.dot a b) <= 1.
Proof.
  intros a b Ha Hb.
  pose proof (dot_self_nonneg (glm.cross a b)) as Hc.
  rewrite dot_cross_cross, Ha, Hb in Hc.
  apply Rabs_le. nra.
Qed.

Lemma dot_reflect_normal :
  forall I N : glm.vec3 R,
    glm.dot N N = 1 -> glm.dot (glm.reflect I N) N = - glm.dot I N.
Proof.
  intros [ix iy iz] [nx ny nz] HN. revert HN. vec_unfold. intros HN.
  replace ((ix - nx * (nx * ix + ny * iy + nz * iz) * 2) * nx
           + (iy - ny * (nx * ix + ny * iy + nz * iz) * 2) * ny
           + (iz - nz * (nx * ix + ny * iy + nz * iz) * 2) * nz)
    with ((ix * nx + iy * ny + iz * nz)
          * (1 - 2 * (nx * nx + ny * ny + nz * nz))) by ring.
  rewrite HN. ring.
Qed.

Lemma dot_reflect_self :
  forall I N : glm.vec3 R,
    glm.dot N N = 1 ->
    glm.dot (glm.reflect I N) (glm.reflect I N) = glm.dot I I.
Proof.
  intros [ix iy iz] [nx ny nz] HN. revert HN. vec_unfold. intros HN.
  set (d := nx * ix + ny * iy + nz * iz).
  replace ((ix - nx * d * 2) * (ix - nx * d * 2)
           + (iy - ny * d * 2) * (iy - ny * d * 2)
           + (iz - nz * d * 2) * (iz - nz * d * 2))
    with (ix * ix + iy * iy + iz * iz - 4 * d * d
          + 4 * d * d * (nx * nx + ny * ny + nz * nz))
    by (unfold d; ring).
  rewrite HN. ring.
Qed.

(** Reflecting twice about a normal of length one gives the vector back. *)
Lemma reflect_reflect :
  forall I N : glm.vec3 R,
    glm.dot N N = 1 -> glm.reflect (glm.reflect I N) N = I.
Proof.
  intros [ix iy iz] [nx ny nz] HN. revert HN. vec_unfold. intros HN.
  set (q := nx * nx + ny * ny + nz * nz) in *.
  set (d := nx * ix + ny * iy + nz * iz).
  assert (E : nx * (ix - nx * d * 2) + ny * (iy - ny * d * 2)
              + nz * (iz - nz * d * 2) = d * (1 - 2 * q))
    by (unfold d, q; ring).
  rewrite E, HN. apply vec3_eq; ring.
Qed.

(** The reflection about [-N] is the reflection about [N]. *)
Lemma reflect_opposite_normal :
  forall I N : glm.vec3 R, glm.reflect I (- N)%V = glm.reflect I N.
Proof.
  intros [ix iy iz] [nx ny nz]. vec_unfold. apply vec3_eq; ring.
Qed.

Lemma two_pi_inverse : 0 < / (2 * PI) < 1.
Proof.
  pose proof PI2_1 as H.
  assert (Hp : 1 < 2 * PI) by lra.
  split.
  - apply Rinv_0_lt_compat. lra.
  - rewrite <- Rinv_1. apply Rinv_lt_contravar; lra.
Qed.

End FurtherVectors.

(** ** In exact arithmetic: the sampler and the scatter step *)

Section FurtherExact.
Context {Rng : Type} {engine : RandomEngine R Rng}.
Variable Camera : Type.
Variable Others : Type.
Local Open Scope R_scope.

(** The sampled direction has length one and its dot product with the
    normal is the square root of the first sample. *)
Lemma hemisphere_dots :
  forall (n : glm.vec3 R) (rng : Rng),
    glm.dot n n = 1 ->
    0 <= fst (u01 rng) <= 1 ->
    let d := fst (calculateRandomDirectionInHemisphere n rng) in
    glm.dot d d = 1 /\ glm.dot d n = sqrt (fst (u01 rng)).
Proof.
  intros n rng Hlen Hu d.
  pose proof (cross_axis_nonzero Hlen) as Hax. cbv zeta in Hax.
  unfold calculateRandomDirectionInHemisphere in d. subst d.
  destruct (u01 rng) as [s1 rng1]. cbn [fst snd] in *.
  destruct (u01 rng1) as [s2 rng2]. cbn [fst snd] in *.
  cbn [fsqrt fsub fmul fcos fsin flt fabs of_int TWO_PI SQRT_OF_ONE_THIRD
       exact_ops].
  set (a := if Rltb (Rabs (glm.x n)) (sqrt (1 / 3)) then glm.Vec3 1 0 0
            else if Rltb (Rabs (glm.y n)) (sqrt (1 / 3)) then glm.Vec3 0 1 0
            else glm.Vec3 0 0 1) in *.
  set (t1 := glm.normalize (glm.cross n a)).
  set (t2 := glm.normalize (glm.cross n t1)).
  set (c := sqrt s1). set (s := sqrt (1 - c * c)). set (phi := s2 * (2 * PI)).
  assert (H11 : glm.dot t1 t1 = 1) by (apply dot_normalize_self, Hax).
  assert (Hn1 : glm.dot n t1 = 0).
  { rewrite dot_sym. unfold t1. rewrite dot_normalize_l, dot_cross_l. ring. }
  assert (Hc2 : glm.dot (glm.cross n t1) (glm.cross n t1) = 1).
  { rewrite dot_cross_cross, Hlen, H11, Hn1. ring. }
  assert (H22 : glm.dot t2 t2 = 1).
  { apply dot_normalize_self. rewrite Hc2. lra. }
  assert (Hn2 : glm.dot n t2 = 0).
  { rewrite dot_sym. unfold t2. rewrite dot_normalize_l, dot_cross_l. ring. }
  assert (H12 : glm.dot t1 t2 = 0).
  { rewrite dot_sym. unfold t2. rewrite dot_normalize_l, dot_cross_r. ring. }
  assert (Hcc : c * c = s1) by (unfold c; apply sqrt_sqrt; lra).
  assert (Hss : s * s = 1 - s1).
  { unfold s. rewrite Hcc. apply sqrt_sqrt. lra. }
  pose proof (sin2_cos2 phi) as Hsc. unfold Rsqr in Hsc.
  split.
  - rewrite dot_combination_self, Hlen, H11, H22, Hn1, Hn2, H12. nra.
  - rewrite dot_combination_first, Hlen, Hn1, Hn2. ring.
Qed.

Lemma Rtrunc_IZR : forall k : Z, (0 <= k)%Z -> Rtrunc (IZR k) = k.
Proof.
  intros k Hk. rewrite Rtrunc_nonneg by (apply IZR_le; exact Hk).
  symmetry. apply Int_part_spec. lra.
Qed.

(** X4: a light count of zero is not noticed: the index is 0 for every
    sample, so the call reads [lights[0]] and [geoms[lights[0]]] and goes
    on as for any other count. *)
Theorem scatterRay_zero_light_count :
  forall (cam : Camera) (rng : Rng) (p : PathSegment.t R Others) i m
         lights geoms materials,
    scatterRay cam rng p i m lights 0 geoms materials =
    (light <- index lights 0 ;;
     geom <- index geoms light ;;
     rb <- int_dec (PathSegment.remainingBounces p) ;;
     Some (if fle (randMat_of rng) (Material.hasReflective m)
           then specular_result rng p i m rb
           else diffuse_result rng p i m rb)).
Proof.
  intros. rewrite scatterRay_unfold.
  unfold float_to_int. cbn [fmul of_int ftrunc exact_ops].
  replace (lightSample_of rng * 0) with (IZR 0) by ring.
  rewrite Rtrunc_IZR by lia. reflexivity.
Qed.

(** X6: for a normal of length one and a first sample [u1] in [0,1], the
    cosine between the sampled direction and the normal is [sqrt u1]; the
    second sample only turns the direction around the normal. *)
Theorem hemisphere_sample_cosine :
  forall (n : glm.vec3 R) (rng : Rng),
    glm.length n = 1 ->
    0 <= fst (u01 rng) <= 1 ->
    glm.dot (fst (calculateRandomDirectionInHemisphere n rng)) n
    = sqrt (fst (u01 rng)).
Proof.
  intros n rng Hlen Hu. apply length_one_dot in Hlen.
  exact (proj2 (hemisphere_dots rng Hlen Hu)).
Qed.

(** X7: the call keeps the ray direction at length one: when the normal
    and the incoming direction have length one (and the sample that the
    sampler turns into the cosine is in [0,1]), so has the new direction,
    in either branch. *)
Theorem scatterRay_keeps_direction_unit :
  forall (cam : Camera) (rng : Rng) (p : PathSegment.t R Others) i m
         lights lightsNum geoms materials k l g,
    reads_defined rng lights lightsNum geoms k l g ->
    (INT_MIN < PathSegment.remainingBounces p)%Z ->
    glm.length (ShadeableIntersection.surfaceNormal i) = 1 ->
    glm.length (Ray.direction (PathSegment.ray p)) = 1 ->
    0 <= fst (u01 (after_two_draws rng)) <= 1 ->
    exists p' rng',
      scatterRay cam rng p i m lights lightsNum geoms materials
        = Some (p', rng') /\
      glm.length (Ray.direction (PathSegment.ray p')) = 1.
Proof.
  intros cam rng p i m lights lightsNum geoms materials k l g
    Hreads Hrb Hn Hd Hu.
  rewrite (scatterRay_defined cam p i m materials Hreads Hrb).
  apply length_one_dot in Hn. apply length_one_dot in Hd.
  destruct (fle (randMat_of rng) (Material.hasReflective m)).
  - eexists; eexists; split; [reflexivity|].
    cbn [specular_result fst PathSegment.ray Ray.direction].
    apply length_one_dot. rewrite (dot_reflect_self _ Hn). exact Hd.
  - unfold diffuse_result. eexists; eexists; split; [reflexivity|].
    cbn [fst PathSegment.ray Ray.direction].
    apply length_one_dot.
    exact (proj1 (hemisphere_dots (after_two_draws rng) Hn Hu)).
Qed.

(** X8: a ray that arrives against a normal of length one leaves on the
    side of the normal: when [dot(direction, normal) <= 0] before the call,
    [dot(direction, normal) >= 0] after it, in either branch. *)
Theorem scatterRay_leaves_surface :
  forall (cam : Camera) (rng : Rng) (p : PathSegment.t R Others) i m
         lights lightsNum geoms materials k l g,
    reads_defined rng lights lightsNum geoms k l g ->
    (INT_MIN < PathSegment.remainingBounces p)%Z ->
    glm.length (ShadeableIntersection.surfaceNormal i) = 1 ->
    glm.dot (Ray.direction (PathSegment.ray p))
      (ShadeableIntersection.surfaceNormal i) <= 0 ->
    0 <= fst (u01 (after_two_draws rng)) <= 1 ->
    exists p' rng',
      scatterRay cam rng p i m lights lightsNum geoms materials
        = Some (p', rng') /\
      0 <= glm.dot (Ray.direction (PathSegment.ray p'))
             (ShadeableIntersection.surfaceNormal i).
Proof.
  intros cam rng p i m lights lightsNum geoms materials k l g
    Hreads Hrb Hn Hd Hu.
  rewrite (scatterRay_defined cam p i m materials Hreads Hrb).
  apply length_one_dot in Hn.
  destruct (fle (randMat_of rng) (Material.hasReflective m)).
  - eexists; eexists; split; [reflexivity|].
    cbn [specular_result fst PathSegment.ray Ray.direction].
    rewrite (dot_reflect_normal _ Hn). lra.
  - unfold diffuse_result. eexists; eexists; split; [reflexivity|].
    cbn [fst PathSegment.ray Ray.direction].
    rewrite (proj2 (hemisphere_dots (after_two_draws rng) Hn Hu)).
    apply sqrt_pos.
Qed.

(** X9: the throughput never grows: with a normal and an incoming
    direction of length one, a base colour with components in [0,1] and a
    throughput with non-negative components, every component of the new
    throughput lies between 0 and the old component. *)
Theorem scatterRay_throughput_bounded :
  forall (cam : Camera) (rng : Rng) (p : PathSegment.t R Others) i m
         lights lightsNum geoms materials k l g,
    reads_defined rng lights lightsNum geoms k l g ->
    (INT_MIN < PathSegment.remainingBounces p)%Z ->
    glm.length (ShadeableIntersection.surfaceNormal i) = 1 ->
    glm.length (Ray.direction (PathSegment.ray p)) = 1 ->
    vec_le (glm.Vec3 0 0 0) (PathSegment.throughput p) ->
    vec_le (glm.Vec3 0 0 0) (Material.color m) ->
    vec_le (Material.color m) (glm.Vec3 1 1 1) ->
    exists p' rng',
      scatterRay cam rng p i m lights lightsNum geoms materials
        = Some (p', rng') /\
      vec_le (glm.Vec3 0 0 0) (PathSegment.throughput p') /\
      vec_le (PathSegment.throughput p') (PathSegment.throughput p).
Proof.
  intros cam rng p i m lights lightsNum geoms materials k l g
    Hreads Hrb Hn Hd HT Hc0 Hc1.
  rewrite (scatterRay_defined cam p i m materials Hreads Hrb).
  apply length_one_dot in Hn. apply length_one_dot in Hd.
  destruct (fle (randMat_of rng) (Material.hasReflective m)).
  - eexists; eexists; split; [reflexivity|].
    cbn [specular_result fst PathSegment.throughput].
    split; [exact HT|]. unfold vec_le. lra.
  - unfold diffuse_result. eexists; eexists; split; [reflexivity|].
    cbn [fst PathSegment.throughput].
    pose proof (dot_abs_le_one Hd Hn) as Ha.
    pose proof (Rabs_pos (glm.dot (Ray.direction (PathSegment.ray p))
                            (ShadeableIntersection.surfaceNormal i))) as Ha0.
    pose proof two_pi_inverse as [Hw0 Hw1].
    unfold glm.abs. cbn [fabs TWO_PI exact_ops].
    set (a := Rabs _) in *.
    destruct (PathSegment.throughput p) as [tx ty tz].
    destruct (Material.color m) as [cx cy cz].
    unfold vec_le in *.
    cbn [glm.vmul glm.vscale glm.vdiv glm.x glm.y glm.z fmul fdiv exact_ops]
      in *.
    unfold Rdiv. set (w := / (2 * PI)) in *.
    destruct HT as (? & ? & ?), Hc0 as (? & ? & ?), Hc1 as (? & ? & ?).
    assert (Hq : forall c, 0 <= c <= 1 -> 0 <= c * a * w <= 1).
    { intros c Hc. assert (0 <= c * a <= 1) by nra. nra. }
    pose proof (Hq cx ltac:(lra)). pose proof (Hq cy ltac:(lra)).
    pose proof (Hq cz ltac:(lra)).
    repeat split; nra.
Qed.

(** X10: [mat.hasReflective] is not checked: with a branch sample in
    [0,1), a material whose [hasReflective] is 1 or more is always
    scattered by the specular branch and one whose [hasReflective] is
    negative always by the diffuse branch. *)
Theorem scatterRay_hasReflective_out_of_range :
  forall (cam : Camera) (rng : Rng) (p : PathSegment.t R Others) i m
         lights lightsNum geoms materials k l g,
    reads_defined rng lights lightsNum geoms k l g ->
    (INT_MIN < PathSegment.remainingBounces p)%Z ->
    0 <= randMat_of rng < 1 ->
    let rb := (PathSegment.remainingBounces p - 1)%Z in
    (1 <= Material.hasReflective m ->
     scatterRay cam rng p i m lights lightsNum geoms materials
     = Some (specular_result rng p i m rb)) /\
    (Material.hasReflective m < 0 ->
     scatterRay cam rng p i m lights lightsNum geoms materials
     = Some (diffuse_result rng p i m rb)).
Proof.
  intros cam rng p i m lights lightsNum geoms materials k l g
    Hreads Hrb Hu rb.
  rewrite (scatterRay_defined cam p i m materials Hreads Hrb). fold rb.
  cbn [fle exact_ops].
  split; intros Hm.
  - replace (Rleb (randMat_of rng) (Material.hasReflective m)) with true;
      [reflexivity|]. symmetry. apply Rleb_true. lra.
  - replace (Rleb (randMat_of rng) (Material.hasReflective m)) with false;
      [reflexivity|]. symmetry. apply Rleb_false. lra.
Qed.

(** X11: two specular bounces between facing mirrors give the direction
    back: when the second surface has the normal of the first, or the
    opposite one, and both calls take the specular branch, the direction
    after the second call is the direction before the first, the
    throughput is unchanged and the budget is two less. *)
Theorem scatterRay_two_mirrors :
  forall (cam : Camera) (rng : Rng) (p : PathSegment.t R Others)
         i1 i2 m1 m2 lights lightsNum geoms materials k1 l1 g1 k2 l2 g2,
    reads_defined rng lights lightsNum geoms k1 l1 g1 ->
    reads_defined (after_two_draws rng) lights lightsNum geoms k2 l2 g2 ->
    (INT_MIN + 1 < PathSegment.remainingBounces p)%Z ->
    glm.length (ShadeableIntersection.surfaceNormal i1) = 1 ->
    (ShadeableIntersection.surfaceNormal i2
       = ShadeableIntersection.surfaceNormal i1 \/
     ShadeableIntersection.surfaceNormal i2
       = (- ShadeableIntersection.surfaceNormal i1)%V) ->
    randMat_of rng <= Material.hasReflective m1 ->
    randMat_of (after_two_draws rng) <= Material.hasReflective m2 ->
    exists p1 rng1 p2 rng2,
      scatterRay cam rng p i1 m1 lights lightsNum geoms materials
        = Some (p1, rng1) /\
      scatterRay cam rng1 p1 i2 m2 lights lightsNum geoms materials
        = Some (p2, rng2) /\
      Ray.direction (PathSegment.ray p2)
        = Ray.direction (PathSegment.ray p) /\
      PathSegment.throughput p2 = PathSegment.throughput p /\
      PathSegment.remainingBounces p2
        = (PathSegment.remainingBounces p - 2)%Z.
Proof.
  intros cam rng p i1 i2 m1 m2 lights lightsNum geoms materials
    k1 l1 g1 k2 l2 g2 Hr1 Hr2 Hrb Hn Hn2 Hs1 Hs2.
  apply length_one_dot in Hn.
  assert (Hrb1 : (INT_MIN < PathSegment.remainingBounces p)%Z) by lia.
  pose proof (scatterRay_defined cam p i1 m1 materials Hr1 Hrb1) as E1.
  cbn [fle exact_ops] in E1.
  rewrite (proj2 (Rleb_true _ _) Hs1) in E1.
  set (r1 := specular_result rng p i1 m1
               (PathSegment.remainingBounces p - 1)) in *.
  assert (Hrb2 : (INT_MIN < PathSegment.remainingBounces (fst r1))%Z).
  { unfold r1. cbn [specular_result fst PathSegment.remainingBounces]. lia. }
  pose proof (scatterRay_defined cam (fst r1) i2 m2 materials Hr2 Hrb2) as E2.
  cbn [fle exact_ops] in E2.
  rewrite (proj2 (Rleb_true _ _) Hs2) in E2.
  exists (fst r1), (snd r1).
  eexists; eexists.
  split; [exact E1|]. split; [exact E2|].
  cbn [specular_result fst snd r1 PathSegment.ray Ray.direction
       PathSegment.throughput PathSegment.remainingBounces].
  unfold r1. cbn [specular_result fst snd PathSegment.ray Ray.direction
       PathSegment.throughput PathSegment.remainingBounces].
  split; [|split; [reflexivity | lia]].
  destruct Hn2 as [-> | ->].
  - apply reflect_reflect. exact Hn.
  - rewrite reflect_opposite_normal. apply reflect_reflect. exact Hn.
Qed.

End FurtherExact.

(** ** The further properties on the scene *)

Section FurtherOnTheScene.
Local Open Scope R_scope.

Lemma reads_first_light :
  forall (s : R) (rest : list R) (g : Geom.t R),
    reads_defined (s :: 0 :: rest) (0%Z :: nil) 1 (g :: nil) 0 0 g.
Proof.
  intros s rest g. unfold reads_defined, lightSample_of, float_to_int.
  cbn [u01 replay hd tl fst snd fmul of_int ftrunc exact_ops].
  replace (0 * 1) with (IZR 0) by ring. rewrite Rtrunc_IZR by lia.
  repeat split; reflexivity.
Qed.

Lemma scene_incoming_unit :
  glm.length (Ray.direction (PathSegment.ray Scene.path)) = 1.
Proof.
  apply length_one_dot.
  cbv [Scene.path PathSegment.ray Ray.direction Scene.incoming Scene.vec
       glm.dot glm.vmul glm.x glm.y glm.z fadd fmul exact_ops].
  field.
Qed.

Lemma scene_third_sample :
  0 <= fst (u01 (after_two_draws Scene.rng_half)) <= 1.
Proof.
  cbv [after_two_draws Scene.rng_half u01 replay hd tl fst snd]. lra.
Qed.

Lemma scene_colors :
  vec_le (glm.Vec3 0 0 0) (PathSegment.throughput Scene.path) /\
  vec_le (glm.Vec3 0 0 0) (Material.color Scene.matte) /\
  vec_le (Material.color Scene.matte) (glm.Vec3 1 1 1).
Proof.
  cbv [vec_le Scene.path Scene.matte PathSegment.throughput Material.color
       Scene.baseColor Scene.vec glm.x glm.y glm.z].
  repeat split; lra.
Qed.

Lemma ceiling_normal :
  ShadeableIntersection.surfaceNormal Mirrors.ceiling
  = (- ShadeableIntersection.surfaceNormal Scene.hit)%V.
Proof.
  cbv [Mirrors.ceiling Scene.hit ShadeableIntersection.surfaceNormal
       Scene.normal Scene.vec glm.vneg glm.x glm.y glm.z fneg exact_ops].
  apply vec3_eq; lra.
Qed.

Lemma scatterRay_ignores_selected_light_witness :
  reads_defined Scene.rng_half Scene.lights 1 Scene.geoms 0 0
    (Geom.mk (Scene.vec 0 2 0)) /\
  reads_defined Scene.rng_half Scene.lights 1 Mirrors.otherGeoms 0 0
    (Geom.mk (Scene.vec 7 (- 3) 2)) /\
  scatterRay Scene.cam Scene.rng_half Scene.path Scene.hit Scene.matte
    Scene.lights 1 Scene.geoms Scene.materials
  = scatterRay Scene.cam Scene.rng_half Scene.path Scene.hit Scene.matte
      Scene.lights 1 Mirrors.otherGeoms Scene.materials.
Proof.
  split; [exact (reads_first_light (1 / 2) _ _)|].
  split; [exact (reads_first_light (1 / 2) _ _)|].
  exact (scatterRay_ignores_selected_light Scene.cam Scene.path Scene.hit
           Scene.matte Scene.materials
           (reads_first_light (1 / 2) _ (Geom.mk (Scene.vec 0 2 0)))
           (reads_first_light (1 / 2) _ (Geom.mk (Scene.vec 7 (- 3) 2)))).
Defined.

Lemma scatterRay_draws_witness :
  reads_defined Scene.rng_half Scene.lights 1 Scene.geoms 0 0
    (Geom.mk (Scene.vec 0 2 0)) /\
  (INT_MIN < PathSegment.remainingBounces Scene.path)%Z /\
  exists p' rng',
    scatterRay Scene.cam Scene.rng_half Scene.path Scene.hit Scene.mirror
      Scene.lights 1 Scene.geoms Scene.materials = Some (p', rng') /\
    if fle (randMat_of Scene.rng_half) (Material.hasReflective Scene.mirror)
    then rng' = after_two_draws Scene.rng_half /\
         PathSegment.throughput p' = PathSegment.throughput Scene.path
    else rng' = after_two_draws (after_two_draws Scene.rng_half).
Proof.
  split; [exact (scene_reads (1 / 2))|].
  split; [exact scene_budget|].
  exact (scatterRay_draws Scene.cam Scene.path Scene.hit Scene.mirror
           Scene.materials (scene_reads (1 / 2)) scene_budget).
Defined.

Lemma hemisphere_sample_cosine_witness :
  glm.length Scene.normal = 1 /\
  glm.dot (fst (calculateRandomDirectionInHemisphere Scene.normal
                  Scene.rng_half)) Scene.normal
  = sqrt (1 / 2).
Proof.
  split; [exact scene_normal_unit|].
  assert (Hu : 0 <= fst (u01 Scene.rng_half) <= 1).
  { cbv [Scene.rng_half u01 replay hd fst]. lra. }
  exact (@hemisphere_sample_cosine _ replay Scene.normal Scene.rng_half
           scene_normal_unit Hu).
Defined.

Lemma scatterRay_keeps_direction_unit_witness :
  glm.length (ShadeableIntersection.surfaceNormal Scene.hit) = 1 /\
  glm.length (Ray.direction (PathSegment.ray Scene.path)) = 1 /\
  exists p' rng',
    scatterRay Scene.cam Scene.rng_half Scene.path Scene.hit Scene.matte
      Scene.lights 1 Scene.geoms Scene.materials = Some (p', rng') /\
    glm.length (Ray.direction (PathSegment.ray p')) = 1.
Proof.
  split; [exact scene_normal_unit|].
  split; [exact scene_incoming_unit|].
  exact (scatterRay_keeps_direction_unit Scene.cam Scene.path Scene.hit
           Scene.matte Scene.materials (scene_reads (1 / 2)) scene_budget
           scene_normal_unit scene_incoming_unit scene_third_sample).
Defined.

Lemma scatterRay_leaves_surface_witness :
  glm.dot (Ray.direction (PathSegment.ray Scene.path))
    (ShadeableIntersection.surfaceNormal Scene.hit) <= 0 /\
  exists p' rng',
    scatterRay Scene.cam Scene.rng_half Scene.path Scene.hit Scene.mirror
      Scene.lights 1 Scene.geoms Scene.materials = Some (p', rng') /\
    0 <= glm.dot (Ray.direction (PathSegment.ray p'))
           (ShadeableIntersection.surfaceNormal Scene.hit).
Proof.
  assert (Hd : glm.dot (Ray.direction (PathSegment.ray Scene.path))
                 (ShadeableIntersection.surfaceNormal Scene.hit) <= 0).
  { cbv [Scene.path PathSegment.ray Ray.direction Scene.incoming Scene.hit
         ShadeableIntersection.surfaceNormal Scene.normal Scene.vec
         glm.dot glm.vmul glm.x glm.y glm.z fadd fmul exact_ops]. lra. }
  split; [exact Hd|].
  exact (scatterRay_leaves_surface Scene.cam Scene.path Scene.hit
           Scene.mirror Scene.materials (scene_reads (1 / 2)) scene_budget
           scene_normal_unit Hd scene_third_sample).
Defined.

Lemma scatterRay_throughput_bounded_witness :
  vec_le (glm.Vec3 0 0 0) (PathSegment.throughput Scene.path) /\
  vec_le (glm.Vec3 0 0 0) (Material.color Scene.matte) /\
  vec_le (Material.color Scene.matte) (glm.Vec3 1 1 1) /\
  exists p' rng',
    scatterRay Scene.cam Scene.rng_half Scene.path Scene.hit Scene.matte
      Scene.lights 1 Scene.geoms Scene.materials = Some (p', rng') /\
    vec_le (glm.Vec3 0 0 0) (PathSegment.throughput p') /\
    vec_le (PathSegment.throughput p') (PathSegment.throughput Scene.path).
Proof.
  destruct scene_colors as (HT & Hc0 & Hc1).
  split; [exact HT|]. split; [exact Hc0|]. split; [exact Hc1|].
  exact (scatterRay_throughput_bounded Scene.cam Scene.path Scene.hit
           Scene.matte Scene.materials (scene_reads (1 / 2)) scene_budget
           scene_normal_unit scene_incoming_unit HT Hc0 Hc1).
Defined.

Lemma scatterRay_hasReflective_out_of_range_witness :
  0 <= randMat_of Scene.rng_half < 1 /\
  1 <= Material.hasReflective Scene.mirror /\
  scatterRay Scene.cam Scene.rng_half Scene.path Scene.hit Scene.mirror
    Scene.lights 1 Scene.geoms Scene.materials
  = Some (specular_result Scene.rng_half Scene.path Scene.hit Scene.mirror 7).
Proof.
  assert (Hu : 0 <= randMat_of Scene.rng_half < 1).
  { cbv [randMat_of Scene.rng_half u01 replay hd fst]. lra. }
  assert (Hm : 1 <= Material.hasReflective Scene.mirror).
  { cbv [Scene.mirror Material.hasReflective]. lra. }
  split; [exact Hu|]. split; [exact Hm|].
  exact (proj1 (scatterRay_hasReflective_out_of_range Scene.cam Scene.path
                  Scene.hit Scene.mirror Scene.materials
                  (scene_reads (1 / 2)) scene_budget Hu) Hm).
Defined.

Lemma scatterRay_two_mirrors_witness :
  glm.length (ShadeableIntersection.surfaceNormal Scene.hit) = 1 /\
  ShadeableIntersection.surfaceNormal Mirrors.ceiling
    = (- ShadeableIntersection.surfaceNormal Scene.hit)%V /\
  exists p1 rng1 p2 rng2,
    scatterRay Scene.cam Mirrors.rng Scene.path Scene.hit Scene.mirror
      Scene.lights 1 Scene.geoms Scene.materials = Some (p1, rng1) /\
    scatterRay Scene.cam rng1 p1 Mirrors.ceiling Scene.mirror
      Scene.lights 1 Scene.geoms Scene.materials = Some (p2, rng2) /\
    Ray.direction (PathSegment.ray p2)
      = Ray.direction (PathSegment.ray Scene.path) /\
    PathSegment.throughput p2 = PathSegment.throughput Scene.path /\
    PathSegment.remainingBounces p2 = (8 - 2)%Z.
Proof.
  split; [exact scene_normal_unit|].
  split; [exact ceiling_normal|].
  assert (Hs : forall rest : list R,
             randMat_of (1 / 2 :: rest) <= Material.hasReflective Scene.mirror).
  { intros rest.
    cbv [randMat_of u01 replay hd fst Scene.mirror Material.hasReflective].
    lra. }
  exact (scatterRay_two_mirrors Scene.cam Scene.path Scene.hit
           Mirrors.ceiling Scene.mirror Scene.mirror Scene.materials
           (reads_first_light (1 / 2) (1 / 2 :: 0 :: nil)
              (Geom.mk (Scene.vec 0 2 0)))
           (reads_first_light (1 / 2) nil (Geom.mk (Scene.vec 0 2 0)))
           ltac:(reflexivity) scene_normal_unit
           (or_intror ceiling_normal) (Hs _) (Hs _)).
Defined.

End FurtherOnTheScene.

(** * Two runs with the same samples *)

Section TwoRuns.
Context {F : Type} {ops : FloatOps F}.
Context {Rng1 Rng2 : Type}.
Context {engine1 : RandomEngine F Rng1} {engine2 : RandomEngine F Rng2}.
Variable Camera : Type.
Variable Others : Type.

Local Open Scope float_scope.

(** The direction that the sampler returns is decided by the two samples
    it draws, not by the engine that delivers them. *)
Lemma sampler_of_samples :
  forall (n : glm.vec3 F) (r1 : Rng1) (r2 : Rng2),
    samples 2 r1 = samples 2 r2 ->
    fst (calculateRandomDirectionInHemisphere n r1)
    = fst (calculateRandomDirectionInHemisphere n r2).
Proof.
  intros n r1 r2 Hs. cbn [samples] in Hs.
  unfold calculateRandomDirectionInHemisphere.
  destruct (u01 r1) as [a1 r1']; destruct (u01 r2) as [a2 r2'].
  cbn [fst snd] in Hs.
  destruct (u01 r1') as [b1 r1'']; destruct (u01 r2') as [b2 r2''].
  cbn [fst snd] in Hs. injection Hs as Ha Hb. subst a2 b2. reflexivity.
Qed.

(** C9: two runs on the same inputs whose engines deliver the same four
    samples (as two engines in the same seed state do) are both undefined
    or both return, and then they return the same path record, its colour
    included, and have advanced their engines by the same number of
    draws, two or four. *)
Theorem scatterRay_deterministic :
  forall (cam : Camera) (rng1 : Rng1) (rng2 : Rng2)
         (p : PathSegment.t F Others) i m lights lightsNum geoms materials,
    samples 4 rng1 = samples 4 rng2 ->
    match scatterRay cam rng1 p i m lights lightsNum geoms materials,
          scatterRay cam rng2 p i m lights lightsNum geoms materials with
    | Some (p1, r1), Some (p2, r2) =>
        p1 = p2 /\
        exists k, (k = 2 \/ k = 4)%nat /\
                  r1 = advance k rng1 /\ r2 = advance k rng2
    | None, None => True
    | _, _ => False
    end.
Proof.
  intros cam rng1 rng2 p i m lights lightsNum geoms materials Hs.
  rewrite !scatterRay_unfold.
  cbn [samples] in Hs. injection Hs as H1 H2 H3 H4.
  unfold lightSample_of, randMat_of. rewrite <- H1, <- H2.
  destruct (float_to_int (fst (u01 (snd (u01 rng1))) * of_int lightsNum))
    as [randLight|]; cbn [obind]; [|exact I].
  destruct (index lights randLight) as [light|]; cbn [obind]; [|exact I].
  destruct (index geoms light) as [geom|]; cbn [obind]; [|exact I].
  destruct (int_dec (PathSegment.remainingBounces p)) as [rb|]; cbn [obind];
    [|exact I].
  destruct (fst (u01 rng1) <=? Material.hasReflective m).
  - cbn [specular_result]. split; [reflexivity|].
    exists 2%nat. split; [left; reflexivity|]. split; reflexivity.
  - unfold diffuse_result.
    rewrite (sampler_of_samples (ShadeableIntersection.surfaceNormal i)
               (r1 := after_two_draws rng1) (r2 := after_two_draws rng2))
      by (cbn [samples]; unfold after_two_draws; rewrite H3, H4; reflexivity).
    split; [reflexivity|].
    exists 4%nat. rewrite !sampler_draws.
    split; [right; reflexivity|]. split; reflexivity.
Qed.

End TwoRuns.

(** * The light index in single precision *)

Unset Implicit Arguments.

Section Binary32Rounding.
Local Open Scope Z_scope.

Lemma digits_bounds :
  forall p : positive,
    2 ^ (Zpos (digits2_pos p) - 1) <= Zpos p < 2 ^ Zpos (digits2_pos p).
Proof.
  induction p as [p IH|p IH|]; cbn [digits2_pos].
  - rewrite Pos2Z.inj_succ.
    replace (Z.succ (Zpos (digits2_pos p)) - 1) with (Z.succ (Zpos (digits2_pos p) - 1)) by lia.
    rewrite !Z.pow_succ_r by lia. lia.
  - rewrite Pos2Z.inj_succ.
    replace (Z.succ (Zpos (digits2_pos p)) - 1) with (Z.succ (Zpos (digits2_pos p) - 1)) by lia.
    rewrite !Z.pow_succ_r by lia. lia.
  - cbn. lia.
Qed.

Lemma pow2_pos : forall x, 0 <= x -> 0 < 2 ^ x.
Proof. intros. apply Z.pow_pos_nonneg; lia. Qed.

Lemma pow2_le : forall x y, 0 <= x <= y -> 2 ^ x <= 2 ^ y.
Proof. intros. apply Z.pow_le_mono_r; lia. Qed.

Lemma pow2_lt_inv : forall x y, 0 <= y -> 2 ^ x < 2 ^ y -> x < y.
Proof. intros x y Hy H. apply (Z.pow_lt_mono_r_iff 2); lia. Qed.

Lemma digits_le :
  forall (p : positive) (k : Z), 0 <= k -> Zpos p < 2 ^ k -> Zpos (digits2_pos p) <= k.
Proof.
  intros p k Hk H. pose proof (digits_bounds p) as [Hlo _].
  assert (2 ^ (Zpos (digits2_pos p) - 1) < 2 ^ k) by lia.
  apply pow2_lt_inv in H0; lia.
Qed.

Lemma digits_ge :
  forall (p : positive) (k : Z), 0 <= k -> 2 ^ k <= Zpos p -> k < Zpos (digits2_pos p).
Proof.
  intros p k Hk H. pose proof (digits_bounds p) as [_ Hhi].
  assert (2 ^ k < 2 ^ Zpos (digits2_pos p)) by lia.
  apply pow2_lt_inv in H0; lia.
Qed.

(** shr_1 *)
Lemma shr_1_spec :
  forall m r s, 0 <= m ->
    shr_1 (Build_shr_record m r s) = Build_shr_record (Z.div2 m) (Z.odd m) (r || s).
Proof.
  intros m r s Hm. destruct m as [|p|p]; [reflexivity| |lia].
  destruct p; reflexivity.
Qed.

Lemma iter_pos_nat :
  forall (A : Type) (f : A -> A) (p : positive) (x : A),
    iter_pos f p x = Nat.iter (Pos.to_nat p) f x.
Proof.
  intros A f. induction p as [p IH|p IH|]; intros x; cbn [iter_pos].
  - rewrite !IH. rewrite Pos2Nat.inj_xI.
    replace (S (2 * Pos.to_nat p))%nat with (Pos.to_nat p + (Pos.to_nat p + 1))%nat by lia.
    rewrite !Nat.iter_add. cbn [Nat.iter nat_rect]. reflexivity.
  - rewrite !IH. rewrite Pos2Nat.inj_xO.
    replace (2 * Pos.to_nat p)%nat with (Pos.to_nat p + Pos.to_nat p)%nat by lia.
    rewrite Nat.iter_add. reflexivity.
  - reflexivity.
Qed.

Lemma shr_iter :
  forall (M : Z) (k : nat), 0 <= M ->
    let x := Nat.iter (S k) shr_1 (Build_shr_record M false false) in
    shr_m x = M / 2 ^ Z.of_nat (S k) /\ shr_r x = Z.odd (M / 2 ^ Z.of_nat k).
Proof.
  intros M k HM. induction k as [|k IH].
  - cbn [Nat.iter nat_rect]. rewrite shr_1_spec by lia. cbn [shr_m shr_r].
    rewrite Z.div2_div. change (2 ^ Z.of_nat 1) with 2. change (2 ^ Z.of_nat 0) with 1.
    rewrite Z.div_1_r. auto.
  - cbv zeta in IH. destruct IH as [Hm Hr].
    set (x := Nat.iter (S k) shr_1 (Build_shr_record M false false)) in *.
    change (Nat.iter (S (S k)) shr_1 (Build_shr_record M false false)) with (shr_1 x).
    destruct x as [m r s]. cbn [shr_m shr_r] in *.
    assert (0 <= m) by (rewrite Hm; apply Z.div_pos; [lia | apply pow2_pos; lia]).
    rewrite shr_1_spec by lia. cbn [shr_m shr_r].
    rewrite Z.div2_div, Hm. split; [|reflexivity].
    rewrite Z.div_div by (try apply pow2_pos; lia).
    f_equal. rewrite (Nat2Z.inj_succ (S k)), Z.pow_succ_r by lia. lia.
Qed.

Lemma odd_half :
  forall (M s : Z), 0 <= M -> 0 < s ->
    Z.odd (M / 2 ^ (s - 1)) = true ->
    (2 * (M / 2 ^ s) + 1) * 2 ^ (s - 1) <= M.
Proof.
  intros M s HM Hs Hodd.
  assert (Hh : 0 < 2 ^ (s - 1)) by (apply pow2_pos; lia).
  set (h := 2 ^ (s - 1)) in *.
  assert (E : 2 ^ s = h * 2).
  { unfold h. replace s with (Z.succ (s - 1)) at 1 by lia.
    rewrite Z.pow_succ_r by lia. lia. }
  rewrite E, <- Z.div_div by lia.
  set (t := M / h) in *.
  assert (Ht : t = 2 * (t / 2) + 1).
  { rewrite (Z.div_mod t 2) at 1 by lia. rewrite Zmod_odd, Hodd. lia. }
  rewrite <- Ht. unfold t. rewrite Z.mul_comm. apply Z.mul_div_le. lia.
Qed.

Lemma shr_round :
  forall (M s E : Z), 0 <= M -> 0 < s ->
    let r := shr (Build_shr_record M false false) E s in
    let m1 := round_nearest_even (shr_m (fst r)) (loc_of_shr_record (fst r)) in
    snd r = E + s /\
    (m1 = M / 2 ^ s \/
     (m1 = M / 2 ^ s + 1 /\ (2 * (M / 2 ^ s) + 1) * 2 ^ (s - 1) <= M)).
Proof.
  intros M s E HM Hs r m1. subst m1 r.
  destruct s as [|p|p]; try lia.
  cbn [shr fst snd]. split; [reflexivity|].
  rewrite iter_pos_nat.
  destruct (Pos2Nat.is_succ p) as [k Hk]. rewrite Hk.
  pose proof (shr_iter M k HM) as Hi. cbv zeta in Hi.
  assert (Hs1 : Z.of_nat (S k) = Z.pos p) by (rewrite <- Hk; apply positive_nat_Z).
  assert (Hs0 : Z.of_nat k = Z.pos p - 1) by lia.
  rewrite Hs1, Hs0 in Hi. destruct Hi as [Hm Hr].
  destruct (Nat.iter (S k) shr_1 (Build_shr_record M false false)) as [m r st].
  cbn [shr_m shr_r] in *. subst m.
  destruct r, st; cbn [loc_of_shr_record round_nearest_even]; auto.
  - right. split; [reflexivity|]. apply odd_half; auto; lia.
  - destruct (Z.even (M / 2 ^ Z.pos p)); auto.
    right. split; [reflexivity|]. apply odd_half; auto; lia.
Qed.

Lemma fexp32 : forall x, fexp 24 128 x = Z.max (x - 24) (-149).
Proof. reflexivity. Qed.

Lemma shr_nonpos :
  forall mrs e n, n <= 0 -> shr mrs e n = (mrs, e).
Proof. intros mrs e [|p|p] H; try reflexivity. lia. Qed.

Lemma round_aux_exact :
  forall (M : positive) (E : Z),
    Z.max (Zpos (digits2_pos M) + E - 24) (-149) <= E -> E <= 104 ->
    rnd32 M E = S754_finite false M E.
Proof.
  intros M E He HE. unfold rnd32, binary_round_aux, shr_fexp.
  cbn [Zdigits2 shr_record_of_loc]. rewrite fexp32.
  rewrite shr_nonpos by lia.
  cbn [shr_m loc_of_shr_record round_nearest_even Zdigits2 shr_record_of_loc].
  rewrite fexp32, shr_nonpos by lia. cbn [shr_m].
  change (128 - 24) with 104.
  destruct (Z.leb_spec E 104); [reflexivity | lia].
Qed.

Lemma round_aux_shift :
  forall (M : positive) (E : Z),
    let e' := Z.max (Zpos (digits2_pos M) + E - 24) (-149) in
    let q := Zpos M / 2 ^ (e' - E) in
    E < e' -> e' < 104 ->
    exists m1,
      (m1 = q \/ (m1 = q + 1 /\ (2 * q + 1) * 2 ^ (e' - E - 1) <= Zpos M)) /\
      0 <= q < 16777216 /\
      rnd32 M E = pack32 m1 e'.
Proof.
  intros M E e' q Hlt He'.
  assert (Hs : 0 < e' - E) by lia.
  pose proof (digits_bounds M) as [Hlo Hhi].
  assert (Hq : 0 <= q < 16777216).
  { unfold q. split; [apply Z.div_pos; [lia | apply pow2_pos; lia]|].
    apply Z.div_lt_upper_bound; [apply pow2_pos; lia|].
    destruct (Z.le_gt_cases (Zpos (digits2_pos M)) 24) as [Hd|Hd].
    - assert (2 ^ Zpos (digits2_pos M) <= 2 ^ 24) by (apply pow2_le; lia).
      assert (1 <= 2 ^ (e' - E)) by (pose proof (pow2_pos (e' - E)); lia).
      change (2 ^ 24) with 16777216 in *. nia.
    - assert (2 ^ Zpos (digits2_pos M) <= 2 ^ (24 + (e' - E)))
        by (apply pow2_le; lia).
      rewrite Z.pow_add_r in H by lia.
      change (2 ^ 24) with 16777216 in *. lia. }
  unfold rnd32, binary_round_aux, shr_fexp.
  cbn [Zdigits2 shr_record_of_loc]. rewrite fexp32. fold e'.
  pose proof (shr_round (Zpos M) (e' - E) E ltac:(lia) Hs) as Hr.
  cbv zeta in Hr.
  destruct (shr (Build_shr_record (Zpos M) false false) E (e' - E)) as [mrs e1].
  cbn [fst snd] in Hr. destruct Hr as [He1 Hm1].
  fold q in Hm1.
  set (m1 := round_nearest_even (shr_m mrs) (loc_of_shr_record mrs)) in *.
  exists m1. split; [exact Hm1|]. split; [exact Hq|].
  replace e1 with e' by lia.
  assert (Hm1r : 0 <= m1 <= 16777216) by lia.
  unfold pack32.
  destruct (Z.eqb_spec m1 0) as [H0|H0].
  - rewrite H0. cbn [Zdigits2 shr_record_of_loc]. rewrite fexp32.
    rewrite shr_nonpos by lia. reflexivity.
  - destruct m1 as [|p|p]; try lia.
    cbn [Zdigits2 shr_record_of_loc]. rewrite fexp32.
    destruct (Z.ltb_spec (Zpos p) 16777216) as [Hp|Hp].
    + assert (Zpos (digits2_pos p) <= 24) by (apply digits_le; [lia | exact Hp]).
      rewrite shr_nonpos by lia. cbn [shr_m Z.to_pos].
      change (128 - 24) with 104.
      destruct (Z.leb_spec e' 104); [reflexivity | lia].
    + assert (Ep : p = 16777216%positive) by lia. subst p.
      change (Zpos (digits2_pos 16777216)) with 25.
      replace (Z.max (25 + e' - 24) (-149) - e') with 1 by lia.
      cbn [shr iter_pos shr_1 shr_m].
      change (128 - 24) with 104.
      destruct (Z.leb_spec (e' + 1) 104); [reflexivity | lia].
Qed.

Lemma pow2_split : forall x y, 0 <= y <= x -> 2 ^ x = 2 ^ y * 2 ^ (x - y).
Proof.
  intros x y H. rewrite <- Z.pow_add_r by lia. f_equal. lia.
Qed.

Lemma below_pack :
  forall m1 e B,
    0 <= m1 <= 16777216 -> -149 <= e ->
    m1 * 2 ^ (e + 149) <= B ->
    below (pack32 m1 e) B.
Proof.
  intros m1 e B Hm He HB. unfold pack32.
  destruct (Z.eqb_spec m1 0); [exact I|].
  destruct (Z.ltb_spec m1 16777216).
  - cbn [below]. rewrite Z2Pos.id by lia. split; [lia | exact HB].
  - cbn [below]. split; [lia|].
    assert (m1 = 16777216) by lia. subst m1.
    replace (e + 1 + 149) with (Z.succ (e + 149)) by lia.
    rewrite Z.pow_succ_r by lia. lia.
Qed.

Lemma round_le :
  forall (M : positive) (E a e : Z),
    8388608 <= a < 16777216 -> -149 <= e < 104 -> -300 <= E <= 104 ->
    Zpos M * 2 ^ (E + 300) < (2 * a + 1) * 2 ^ (e - 1 + 300) ->
    below (rnd32 M E) (a * 2 ^ (e + 149)).
Proof.
  intros M E a e Ha He HE H.
  pose proof (digits_bounds M) as [Hlo Hhi].
  set (d := Zpos (digits2_pos M)) in *.
  assert (Hd : 1 <= d) by (unfold d; lia).
  set (e' := Z.max (d + E - 24) (-149)).
  assert (Hpe : 0 < 2 ^ (e + 149)) by (apply pow2_pos; lia).
  destruct (Z.le_gt_cases e' E) as [Hexact|Hshift].
  - rewrite round_aux_exact by (fold d; fold e'; lia).
    cbn [below]. split; [lia|].
    destruct (Z.le_gt_cases e E) as [HeE|HeE].
    + rewrite (pow2_split (E + 300) (e - 1 + 300)) in H by lia.
      replace (E + 300 - (e - 1 + 300)) with (Z.succ (E - e)) in H by lia.
      rewrite Z.pow_succ_r in H by lia.
      assert (0 < 2 ^ (e - 1 + 300)) by (apply pow2_pos; lia).
      assert (0 < 2 ^ (E - e)) by (apply pow2_pos; lia).
      assert (Zpos M * 2 ^ (E - e) <= a) by nia.
      rewrite (pow2_split (E + 149) (e + 149)) by lia.
      replace (E + 149 - (e + 149)) with (E - e) by lia. nia.
    + assert (d <= 24) by lia.
      assert (2 ^ d <= 2 ^ 24) by (apply pow2_le; lia).
      change (2 ^ 24) with 16777216 in *.
      rewrite (pow2_split (e + 149) (E + 149)) by lia.
      assert (0 < 2 ^ (E + 149)) by (apply pow2_pos; lia).
      assert (2 ^ 1 <= 2 ^ (e + 149 - (E + 149))) by (apply pow2_le; lia).
      change (2 ^ 1) with 2 in *.
      set (Y := 2 ^ (E + 149)) in *. set (W := 2 ^ (e + 149 - (E + 149))) in *.
      assert (Zpos M * Y <= 2 * a * Y) by nia.
      assert (a * Y * 2 <= a * Y * W) by (apply Z.mul_le_mono_nonneg_l; nia).
      nia.
  - assert (Hee : e' <= e).
    { destruct (Z.le_gt_cases e' e) as [|Hgt]; [assumption|exfalso].
      assert (e + 25 <= d + E) by lia.
      assert (2 ^ (e + 24 + 300) <= 2 ^ (d - 1 + (E + 300)))
        by (apply pow2_le; lia).
      rewrite (Z.pow_add_r 2 (d - 1) (E + 300)) in H1 by lia.
      assert (0 < 2 ^ (E + 300)) by (apply pow2_pos; lia).
      replace (e + 24 + 300) with (25 + (e - 1 + 300)) in H1 by lia.
      rewrite (Z.pow_add_r 2 25 (e - 1 + 300)) in H1 by lia.
      change (2 ^ 25) with 33554432 in H1.
      assert (0 < 2 ^ (e - 1 + 300)) by (apply pow2_pos; lia).
      nia. }
    destruct (round_aux_shift M E) as (m1 & Hm1 & Hq & ->);
      [fold d; fold e'; lia | fold d; fold e'; lia |].
    fold d in Hm1, Hq |- *. fold e' in Hm1, Hq |- *.
    set (q := Zpos M / 2 ^ (e' - E)) in *.
    assert (He'lo : -149 <= e') by (unfold e'; lia).
    destruct (Z.eq_dec e' e) as [Heq|Hne].
    + (* same binade as the bound *)
      rewrite Heq in *.
      assert (Hs : 0 < e - E) by lia.
      rewrite (pow2_split (e - 1 + 300) (E + 300)) in H by lia.
      replace (e - 1 + 300 - (E + 300)) with (e - E - 1) in H by lia.
      assert (0 < 2 ^ (E + 300)) by (apply pow2_pos; lia).
      assert (HM : Zpos M < (2 * a + 1) * 2 ^ (e - E - 1)) by nia.
      assert (Hh : 0 < 2 ^ (e - E - 1)) by (apply pow2_pos; lia).
      assert (E2 : 2 ^ (e - E) = 2 * 2 ^ (e - E - 1)).
      { replace (e - E) with (Z.succ (e - E - 1)) at 1 by lia.
        rewrite Z.pow_succ_r by lia. reflexivity. }
      assert (Hqm : q * 2 ^ (e - E) <= Zpos M).
      { unfold q. rewrite Heq, Z.mul_comm. apply Z.mul_div_le. lia. }
      assert (Hqa : q <= a) by nia.
      assert (Hm1a : 0 <= m1 <= a).
      { destruct Hm1 as [->|[-> Hup]]; [lia|]. nia. }
      apply below_pack; [lia | lia | nia].
    + assert (Hlt : e' + 1 <= e) by lia.
      apply below_pack; [lia | lia |].
      rewrite (pow2_split (e + 149) (e' + 149)) by lia.
      assert (0 < 2 ^ (e' + 149)) by (apply pow2_pos; lia).
      assert (2 ^ 1 <= 2 ^ (e + 149 - (e' + 149))) by (apply pow2_le; lia).
      change (2 ^ 1) with 2 in *.
      assert (m1 <= 16777216) by lia.
      set (Y := 2 ^ (e' + 149)) in *. set (W := 2 ^ (e + 149 - (e' + 149))) in *.
      assert (m1 * Y <= 2 * a * Y) by nia.
      assert (a * Y * 2 <= a * Y * W) by (apply Z.mul_le_mono_nonneg_l; nia).
      nia.
Qed.

Lemma iter_xO :
  forall (p k : positive), Zpos (Pos.iter xO p k) = Zpos p * 2 ^ Zpos k.
Proof.
  intros p k. induction k as [|k IH] using Pos.peano_ind.
  - cbn [Pos.iter]. lia.
  - rewrite Pos.iter_succ, Pos2Z.inj_xO, IH, Pos2Z.inj_succ.
    rewrite Z.pow_succ_r by lia. lia.
Qed.

Lemma digits_24 :
  forall m : positive,
    8388608 <= Zpos m < 16777216 -> Zpos (digits2_pos m) = 24.
Proof.
  intros m [Hlo Hhi].
  pose proof (digits_le m 24 ltac:(lia) Hhi).
  pose proof (digits_ge m 23 ltac:(lia) Hlo). lia.
Qed.

Lemma of_int_spec :
  forall p : positive,
    Zpos p <= 2147483647 ->
    exists mN eN,
      f32_of_int (Zpos p) = S754_finite false mN eN /\
      8388608 <= Zpos mN < 16777216 /\
      -23 <= eN <= 8 /\
      (Zpos mN = 8388608 ->
       16777215 * 2 ^ (eN - 1 + 149) < Zpos p * 2 ^ 149) /\
      (8388608 < Zpos mN ->
       (Zpos mN - 1) * 2 ^ (eN + 149) < Zpos p * 2 ^ 149).
Proof.
  intros p Hp.
  pose proof (digits_bounds p) as [Hlo Hhi].
  set (d := Zpos (digits2_pos p)) in *.
  assert (Hd1 : 1 <= d) by (unfold d; lia).
  assert (Hd31 : d <= 31) by (apply digits_le; [lia | change (2 ^ 31) with 2147483648; lia]).
  assert (P149 : 0 < 2 ^ 149) by (apply pow2_pos; lia).
  unfold f32_of_int, binary_normalize, binary_round, shl_align.
  rewrite fexp32. fold d.
  replace (Z.max (d + 0 - 24) (-149) - 0) with (d - 24) by lia.
  destruct (d - 24) as [|s|k] eqn:Ed.
  - (* 24 digits: the integer is its own mantissa *)
    assert (Hd : d = 24) by lia.
    rewrite Hd in *. change (2 ^ (24 - 1)) with 8388608 in Hlo.
    change (2 ^ 24) with 16777216 in Hhi.
    fold (rnd32 p 0). rewrite round_aux_exact by (fold d; lia).
    exists p, 0. split; [reflexivity|]. split; [lia|]. split; [lia|].
    split; intros Hm.
    + change (2 ^ (0 - 1 + 149)) with (2 ^ 148).
      change (2 ^ 149) with (2 * 2 ^ 148).
      assert (0 < 2 ^ 148) by (apply pow2_pos; lia). nia.
    + change (0 + 149) with 149. nia.
  - (* more than 24 digits: the integer is rounded *)
    fold (rnd32 p 0).
    assert (Hs : 1 <= Zpos s <= 7) by lia.
    destruct (round_aux_shift p 0) as (m1 & Hm1 & Hq & ->);
      [fold d; lia | fold d; lia |].
    fold d in Hm1, Hq |- *.
    replace (Z.max (d + 0 - 24) (-149)) with (Zpos s) in * by lia.
    replace (Zpos s - 0) with (Zpos s) in * by lia.
    set (q := Zpos p / 2 ^ Zpos s) in *.
    assert (P2s : 0 < 2 ^ Zpos s) by (apply pow2_pos; lia).
    assert (E2 : 2 ^ Zpos s = 2 * 2 ^ (Zpos s - 1)).
    { replace (Zpos s) with (Z.succ (Zpos s - 1)) at 1 by lia.
      rewrite Z.pow_succ_r by lia. reflexivity. }
    assert (Ph : 0 < 2 ^ (Zpos s - 1)) by (apply pow2_pos; lia).
    assert (Hqlo : 8388608 <= q).
    { unfold q. apply Z.div_le_lower_bound; [lia|].
      replace (d - 1) with (Zpos s + 23) in Hlo by lia.
      rewrite Z.pow_add_r in Hlo by lia. change (2 ^ 23) with 8388608 in Hlo. lia. }
    assert (Hqm : q * 2 ^ Zpos s <= Zpos p).
    { unfold q. rewrite Z.mul_comm. apply Z.mul_div_le. lia. }
    assert (Hup : (m1 - 1) * 2 ^ Zpos s < Zpos p /\ q <= m1 <= q + 1).
    { destruct Hm1 as [->|[-> Hu]]; split; try lia; nia. }
    destruct Hup as [Hup Hm1q].
    unfold pack32.
    destruct (Z.eqb_spec m1 0); [lia|].
    destruct (Z.ltb_spec m1 16777216) as [Hlt|Hge].
    + exists (Z.to_pos m1), (Zpos s). rewrite Z2Pos.id by lia.
      split; [reflexivity|]. split; [lia|]. split; [lia|].
      split; intros Hm.
      * replace (Zpos s - 1 + 149) with ((Zpos s - 1) + 149) by lia.
        rewrite Z.pow_add_r by lia.
        assert (m1 = q) by lia. nia.
      * rewrite Z.pow_add_r by lia. nia.
    + assert (Hm : m1 = 16777216) by lia.
      exists 8388608%positive, (Zpos s + 1).
      split; [reflexivity|]. split; [lia|]. split; [lia|].
      split; intros Hm'; [|lia].
      replace (Zpos s + 1 - 1 + 149) with (Zpos s + 149) by lia.
      rewrite Z.pow_add_r by lia. nia.
  - (* fewer than 24 digits: the mantissa is shifted left *)
    assert (Hk : Zpos k = 24 - d) by lia.
    replace (Z.max (d + 0 - 24) (-149)) with (- Zpos k) by lia.
    fold (rnd32 (Pos.iter xO p k) (- Zpos k)).
    pose proof (iter_xO p k) as Hm.
    assert (P2k : 0 < 2 ^ Zpos k) by (apply pow2_pos; lia).
    assert (Hrange : 8388608 <= Zpos (Pos.iter xO p k) < 16777216).
    { rewrite Hm. split.
      - assert (2 ^ 23 = 2 ^ (d - 1) * 2 ^ Zpos k)
          by (rewrite <- Z.pow_add_r by lia; f_equal; lia).
        change (2 ^ 23) with 8388608 in *. nia.
      - assert (2 ^ 24 = 2 ^ d * 2 ^ Zpos k)
          by (rewrite <- Z.pow_add_r by lia; f_equal; lia).
        change (2 ^ 24) with 16777216 in *. nia. }
    rewrite round_aux_exact by (try rewrite (digits_24 _ Hrange); lia).
    exists (Pos.iter xO p k), (- Zpos k).
    split; [reflexivity|]. split; [exact Hrange|]. split; [lia|].
    assert (E149 : 2 ^ 149 = 2 ^ Zpos k * 2 ^ (- Zpos k + 149))
      by (rewrite <- Z.pow_add_r by lia; f_equal; lia).
    assert (Pr : 0 < 2 ^ (- Zpos k + 149)) by (apply pow2_pos; lia).
    split; intros Hm'.
    + assert (E1 : 2 ^ (- Zpos k + 149) = 2 * 2 ^ (- Zpos k - 1 + 149)).
      { replace (- Zpos k + 149) with (Z.succ (- Zpos k - 1 + 149)) by lia.
        rewrite Z.pow_succ_r by lia. reflexivity. }
      assert (0 < 2 ^ (- Zpos k - 1 + 149)) by (apply pow2_pos; lia).
      rewrite E149. nia.
    + rewrite E149. nia.
Qed.

Lemma trunc_below :
  forall (x : spec_float) (B n : Z),
    below x B -> B < n * 2 ^ 149 -> 1 <= n ->
    0 <= f32_trunc x <= n - 1.
Proof.
  intros x B n Hx HB Hn.
  assert (P149 : 0 < 2 ^ 149) by (apply pow2_pos; lia).
  destruct x as [s|s| |s m e]; cbn [below] in Hx; try contradiction.
  - cbn [f32_trunc]. lia.
  - destruct s; [contradiction|]. destruct Hx as [He Hm].
    cbn [f32_trunc cond_Zopp].
    destruct (Z.leb_spec 0 e) as [Hpos|Hneg].
    + assert (0 < 2 ^ e) by (apply pow2_pos; lia).
      rewrite Z.pow_add_r in Hm by lia. split; [nia|].
      assert (Zpos m * 2 ^ e < n) by nia. lia.
    + assert (P : 0 < 2 ^ (- e)) by (apply pow2_pos; lia).
      split; [apply Z.div_pos; lia|].
      assert (Hq : Zpos m / 2 ^ (- e) * 2 ^ (- e) <= Zpos m)
        by (rewrite Z.mul_comm; apply Z.mul_div_le; lia).
      assert (E149 : 2 ^ 149 = 2 ^ (- e) * 2 ^ (e + 149))
        by (rewrite <- Z.pow_add_r by lia; f_equal; lia).
      assert (0 < 2 ^ (e + 149)) by (apply pow2_pos; lia).
      rewrite E149 in HB.
      assert (Zpos m / 2 ^ (- e) < n) by nia. lia.
Qed.

Lemma sample_below_one :
  forall u : spec_float,
    valid_binary 24 128 u = true ->
    SFleb (f32_of_int 0) u = true ->
    SFltb u (f32_of_int 1) = true ->
    (exists s, u = S754_zero s) \/
    (exists mu eu,
       u = S754_finite false mu eu /\
       Zpos mu < 16777216 /\ -149 <= eu <= -24).
Proof.
  intros u Hv H0 H1.
  change (f32_of_int 0) with (S754_zero false) in H0.
  change (f32_of_int 1) with (S754_finite false 8388608 (-23)) in H1.
  destruct u as [s|s| |s m e].
  - left. exists s. reflexivity.
  - destruct s; discriminate.
  - discriminate.
  - right. destruct s; [discriminate|].
    exists m, e. split; [reflexivity|].
    cbn [valid_binary] in Hv. unfold bounded, canonical_mantissa in Hv.
    apply andb_true_iff in Hv. destruct Hv as [Hc _].
    apply Z.eqb_eq in Hc. rewrite fexp32 in Hc.
    pose proof (digits_bounds m) as [Hlo Hhi].
    set (d := Zpos (digits2_pos m)) in *.
    unfold SFltb, SFcompare in H1.
    destruct (Z.compare_spec e (-23)) as [He|He|He]; try discriminate.
    + (* e = -23: the mantissa would have to be below 2^23 *)
      exfalso.
      assert (Hd : d = 24) by lia.
      rewrite Hd in Hlo. change (2 ^ (24 - 1)) with 8388608 in Hlo.
      destruct (Pos.compare_cont Eq m 8388608) eqn:Ec; try discriminate.
      change (Pos.compare_cont Eq m 8388608) with (Pos.compare m 8388608) in Ec.
      rewrite Pos.compare_lt_iff in Ec. lia.
    + assert (d <= 24) by lia.
      assert (2 ^ d <= 2 ^ 24) by (apply pow2_le; unfold d; lia).
      change (2 ^ 24) with 16777216 in *. lia.
Qed.

Lemma mul_of_int_range :
  forall (u : spec_float) (n : Z),
    valid_binary 24 128 u = true ->
    SFleb (f32_of_int 0) u = true ->
    SFltb u (f32_of_int 1) = true ->
    1 <= n <= 2147483647 ->
    0 <= f32_trunc (SFmul 24 128 u (f32_of_int n)) <= n - 1.
Proof.
  intros u n Hv H0 H1 Hn.
  destruct n as [|p|p]; try lia.
  destruct (of_int_spec p ltac:(lia)) as (mN & eN & -> & HmN & HeN & Hpow & Hgen).
  destruct (sample_below_one u Hv H0 H1) as [[s ->]|(mu & eu & -> & Hmu & Heu)].
  - cbn [SFmul f32_trunc]. lia.
  - cbn [SFmul xorb]. fold (rnd32 (mu * mN) (eu + eN)).
    assert (PY : 0 < 2 ^ (eu + eN + 300)) by (apply pow2_pos; lia).
    assert (PT : 1 <= 2 ^ (-24 - eu))
      by (pose proof (pow2_pos (-24 - eu)); lia).
    set (Y := 2 ^ (eu + eN + 300)) in *. set (T := 2 ^ (-24 - eu)) in *.
    assert (EYT : forall c, 0 <= c -> 2 ^ (eN + 276 + c) = 2 ^ c * (Y * T)).
    { intros c Hc. unfold Y, T. rewrite <- !Z.pow_add_r by lia. f_equal. lia. }
    destruct (Z.eq_dec (Zpos mN) 8388608) as [Hp2|Hnp2].
    + (* the count is a power of two *)
      apply trunc_below with (B := 16777215 * 2 ^ (eN - 1 + 149));
        [|apply Hpow; exact Hp2 | lia].
      apply round_le; [lia | lia | lia |].
      rewrite Pos2Z.inj_mul, Hp2.
      replace (eN - 1 - 1 + 300) with (eN + 276 + 22) by lia.
      rewrite (EYT 22) by lia. change (2 ^ 22) with 4194304.
      fold Y. nia.
    + apply trunc_below with (B := (Zpos mN - 1) * 2 ^ (eN + 149));
        [|apply Hgen; lia | lia].
      apply round_le; [lia | lia | lia |].
      rewrite Pos2Z.inj_mul.
      replace (eN - 1 + 300) with (eN + 276 + 23) by lia.
      rewrite (EYT 23) by lia. change (2 ^ 23) with 8388608.
      fold Y.
      assert (Zpos mu * Zpos mN <= 16777215 * Zpos mN) by nia.
      assert (16777215 * Zpos mN < (2 * (Zpos mN - 1) + 1) * 8388608) by lia.
      assert (Zpos mu * Zpos mN * Y < (2 * (Zpos mN - 1) + 1) * 8388608 * Y) by nia.
      assert ((2 * (Zpos mN - 1) + 1) * 8388608 * Y
              <= (2 * (Zpos mN - 1) + 1) * 8388608 * Y * T)
        by (apply Z.le_mul_diag_r; nia).
      nia.
Qed.

End Binary32Rounding.

Set Implicit Arguments.

Section Binary32Scatter.
Variables cosf sinf : spec_float -> spec_float.
Variable powf : spec_float -> spec_float -> spec_float.
Context {Rng : Type} {engine : RandomEngine spec_float Rng}.
Variable Camera : Type.
Variable Others : Type.

(** C8, as the code has it: with [lightsNum] positive and the length of
    [lights], and a single-precision sample in [0,1), the index is the
    cast to [int] of the single-precision product of the sample and
    [lightsNum]; it lies between 0 and [lightsNum - 1], so the read of
    [lights] is in bounds.  The read of [geoms] is in bounds exactly when
    the light that was read is an index of [geoms]: then the call returns
    (its budget permitting), otherwise it has no defined result. *)
Theorem scatterRay_light_reads :
  forall (cam : Camera) (rng : Rng) (p : PathSegment.t spec_float Others)
         i m lights lightsNum geoms materials,
    (0 < lightsNum)%Z ->
    in_int_range lightsNum = true ->
    Z.of_nat (length lights) = lightsNum ->
    valid_binary 24 128 (lightSample_of rng) = true ->
    SFleb (f32_of_int 0) (lightSample_of rng) = true ->
    SFltb (lightSample_of rng) (f32_of_int 1) = true ->
    exists k l,
      k = f32_trunc (SFmul 24 128 (lightSample_of rng) (f32_of_int lightsNum)) /\
      (0 <= k <= lightsNum - 1)%Z /\
      index lights k = Some l /\
      (forall g, index geoms l = Some g ->
         (INT_MIN < PathSegment.remainingBounces p)%Z ->
         exists p' rng',
           scatterRay (ops := binary32_ops cosf sinf powf)
             cam rng p i m lights lightsNum geoms materials
           = Some (p', rng')) /\
      (index geoms l = None ->
       scatterRay (ops := binary32_ops cosf sinf powf)
         cam rng p i m lights lightsNum geoms materials = None).
Proof.
  intros cam rng p i m lights lightsNum geoms materials
    Hpos Hint Hlen Hv H0 H1.
  unfold in_int_range in Hint. apply andb_true_iff in Hint.
  destruct Hint as [_ Hmax]. apply Z.leb_le in Hmax. unfold INT_MAX in Hmax.
  pose proof (mul_of_int_range (lightSample_of rng) lightsNum Hv H0 H1
                ltac:(lia)) as Hk.
  set (k := f32_trunc (SFmul 24 128 (lightSample_of rng)
                         (f32_of_int lightsNum))) in *.
  destruct (@index_defined _ lights k) as (l & Hl & _); [lia|].
  exists k, l. split; [reflexivity|]. split; [exact Hk|]. split; [exact Hl|].
  assert (Hcast : float_to_int (ops := binary32_ops cosf sinf powf)
                    (fmul (FloatOps := binary32_ops cosf sinf powf)
                       (lightSample_of rng)
                       (of_int (FloatOps := binary32_ops cosf sinf powf)
                          lightsNum))
                  = Some k).
  { unfold float_to_int. cbn [fmul of_int ftrunc binary32_ops]. fold k.
    unfold in_int_range.
    replace (INT_MIN <=? k)%Z with true
      by (symmetry; apply Z.leb_le; unfold INT_MIN; lia).
    replace (k <=? INT_MAX)%Z with true
      by (symmetry; apply Z.leb_le; unfold INT_MAX; lia).
    reflexivity. }
  split.
  - intros g Hg Hrb.
    rewrite (scatterRay_defined cam p i m materials
               (conj Hcast (conj Hl Hg)) Hrb).
    eexists; eexists. apply f_equal. apply surjective_pairing.
  - intros Hnone. rewrite scatterRay_unfold, Hcast. cbn [obind].
    rewrite Hl. cbn [obind]. rewrite Hnone. reflexivity.
Qed.

End Binary32Scatter.

(** ** On the scene in single precision *)

Section OnTheScene32.

(** C8 fails on the scene with the stray light: the sample 0.7f is in
    [0,1) and there are ten lights, the floor of the exact product is 6,
    the code's index is 7 (the single-precision product is 7), and the
    light read there is no index of [geoms], so the read of [geoms] is out
    of bounds and the call has no defined result. *)
Lemma scatterRay_light_reads_counterexample :
  lightSample_of (engine := Scene32.engine) Scene32.rng
    = Scene32.seven_tenths /\
  Z.of_nat (length Scene32.strayLights) = 10%Z /\
  valid_binary 24 128 Scene32.seven_tenths = true /\
  SFleb (f32_of_int 0) Scene32.seven_tenths = true /\
  SFltb Scene32.seven_tenths (f32_of_int 1) = true /\
  floor_of_exact_product Scene32.seven_tenths 10 = 6%Z /\
  float_to_int (ops := Scene32.ops)
    (SFmul 24 128 Scene32.seven_tenths (f32_of_int 10)) = Some 7%Z /\
  index Scene32.strayLights 7 = Some 5%Z /\
  index Scene32.geoms 5 = None /\
  scatterRay (ops := Scene32.ops) (engine := Scene32.engine)
    tt Scene32.rng Scene32.path Scene32.hit Scene32.matte
    Scene32.strayLights 10 Scene32.geoms nil
  = None.
Proof.
  repeat split; vm_compute; reflexivity.
Qed.

Lemma scatterRay_light_reads_witness :
  Z.of_nat (length Scene32.lights) = 10%Z /\
  valid_binary 24 128
    (lightSample_of (engine := Scene32.engine) Scene32.rng) = true /\
  SFltb (lightSample_of (engine := Scene32.engine) Scene32.rng)
    (f32_of_int 1) = true /\
  exists k l,
    k = f32_trunc
          (SFmul 24 128
             (lightSample_of (engine := Scene32.engine) Scene32.rng)
             (f32_of_int 10)) /\
    (0 <= k <= 10 - 1)%Z /\
    index Scene32.lights k = Some l /\
    (forall g, index Scene32.geoms l = Some g ->
       (INT_MIN < PathSegment.remainingBounces Scene32.path)%Z ->
       exists p' rng',
         scatterRay (ops := Scene32.ops) (engine := Scene32.engine)
           tt Scene32.rng Scene32.path Scene32.hit Scene32.matte
           Scene32.lights 10 Scene32.geoms nil
         = Some (p', rng')) /\
    (index Scene32.geoms l = None ->
     scatterRay (ops := Scene32.ops) (engine := Scene32.engine)
       tt Scene32.rng Scene32.path Scene32.hit Scene32.matte
       Scene32.lights 10 Scene32.geoms nil = None).
Proof.
  split; [reflexivity|]. split; [reflexivity|]. split; [reflexivity|].
  exact (@scatterRay_light_reads Scene32.unspecified1 Scene32.unspecified1
           Scene32.unspecified2 _ Scene32.engine unit Z
           tt Scene32.rng Scene32.path Scene32.hit Scene32.matte
           Scene32.lights 10%Z Scene32.geoms nil
           eq_refl eq_refl eq_refl eq_refl eq_refl eq_refl).
Defined.

End OnTheScene32.

(** ** The sampler and two runs on the scene *)

Section SamplerAndRunsOnTheScene.
Local Open Scope R_scope.

Lemma hemisphere_sample_unit_witness :
  glm.length Scene.normal = 1 /\
  exists t1 t2 : glm.vec3 R,
    t1 = glm.normalize (glm.cross Scene.normal (glm.Vec3 1 0 0)) /\
    t2 = glm.normalize (glm.cross Scene.normal t1) /\
    glm.length t1 = 1 /\ glm.length t2 = 1 /\
    glm.dot Scene.normal t1 = 0 /\ glm.dot Scene.normal t2 = 0 /\
    glm.dot t1 t2 = 0 /\
    let d := fst (calculateRandomDirectionInHemisphere Scene.normal
                    Scene.rng_half) in
    d = (sqrt (1 / 2) *: Scene.normal
         + (cos (2 * PI * 0) * sqrt (1 - sqrt (1 / 2) * sqrt (1 / 2))) *: t1
         + (sin (2 * PI * 0) * sqrt (1 - sqrt (1 / 2) * sqrt (1 / 2))) *: t2)%V /\
    glm.length d = 1 /\
    0 <= glm.dot d Scene.normal.
Proof.
  split; [exact scene_normal_unit|].
  destruct (@hemisphere_sample_unit _ replay Scene.normal scene_normal_unit)
    as (t1 & t2 & Hx & _ & _ & H2 & L1 & L2 & N1 & N2 & N12 & Hall).
  exists t1, t2.
  split.
  { apply Hx. cbv [Scene.normal Scene.vec glm.x]. rewrite Rabs_R0.
    apply sqrt_third_bounds. }
  split; [exact H2|].
  split; [exact L1|]. split; [exact L2|].
  split; [exact N1|]. split; [exact N2|]. split; [exact N12|].
  assert (Hu1 : 0 <= fst (u01 Scene.rng_half) < 1).
  { cbv [Scene.rng_half u01 replay hd fst]. lra. }
  assert (Hu2 : 0 <= fst (u01 (snd (u01 Scene.rng_half))) < 1).
  { cbv [Scene.rng_half u01 replay hd tl fst snd]. lra. }
  exact (Hall Scene.rng_half Hu1 Hu2).
Defined.

Lemma scatterRay_deterministic_witness :
  samples 4 Scene.rng_half = samples 4 (Scene.rng_half ++ [1 / 3; 1 / 7]) /\
  match scatterRay Scene.cam Scene.rng_half Scene.path Scene.hit
          Scene.matte Scene.lights 1 Scene.geoms Scene.materials,
        scatterRay Scene.cam (Scene.rng_half ++ [1 / 3; 1 / 7]) Scene.path
          Scene.hit Scene.matte Scene.lights 1 Scene.geoms Scene.materials
  with
  | Some (p1, r1), Some (p2, r2) =>
      p1 = p2 /\
      exists k, (k = 2 \/ k = 4)%nat /\
                r1 = advance k Scene.rng_half /\
                r2 = advance k (Scene.rng_half ++ [1 / 3; 1 / 7])
  | None, None => True
  | _, _ => False
  end.
Proof.
  split; [reflexivity|].
  exact (@scatterRay_deterministic R exact_ops _ _ replay replay unit Z
           Scene.cam Scene.rng_half (Scene.rng_half ++ [1 / 3; 1 / 7])
           Scene.path Scene.hit Scene.matte Scene.lights 1%Z Scene.geoms
           Scene.materials eq_refl).
Defined.

End SamplerAndRunsOnTheScene.
